(** * BrainDown icon generator: a shallow embedding of [generate_icon.py]

    The script synthesises one 1024x1024 RGBA raster (a blue vertical gradient
    clipped to a rounded square, with a document glyph drawn on top), saves it
    as a PNG and saves a 512x512 resize of it as a second PNG.

    The development follows the script top to bottom:
    - Python's numbers: integers are [Z], floats are IEEE 754 binary64 values
      ([SpecFloat.spec_float] at precision 53), exceptions are a [result];
    - Pillow's rasters: an image is its size and its pixel function, a drawing
      call repaints the pixels its shape covers;
    - the operating system: a tree of directories and files with write
      permissions, [os.makedirs], the file write behind [Image.save], [print];
    - the script itself, then the properties of its output. *)

From Stdlib Require Import ZArith QArith Lia Bool List Ascii String.
From Stdlib Require Import SpecFloat.
From stdpp Require Import gmap strings list.

Local Open Scope Z_scope.

(* ===================================================================== *)
(** * Python values and exceptions                                        *)
(* ===================================================================== *)

(** The exceptions the script can meet. *)
Inductive exn : Type :=
  | ZeroDivisionError
  | OverflowError
  | ValueError
  | FileExistsError
  | FileNotFoundError
  | NotADirectoryError
  | IsADirectoryError
  | PermissionError.

(** A computation either returns a value or raises. *)
Inductive result (A : Type) : Type :=
  | Ok (a : A)
  | Raise (e : exn).
Arguments Ok {A} a.
Arguments Raise {A} e.

(** Sequencing stops at the first exception: [x ← m; k] is Python's
    statement order. *)
#[global] Instance result_ret : MRet result := fun _ a => Ok a.
#[global] Instance result_bind : MBind result := fun _ _ k m =>
  match m with
  | Ok a => k a
  | Raise e => Raise e
  end.

(** [returns m P]: the computation returns, and its value satisfies [P]. *)
Definition returns {A : Type} (m : result A) (P : A -> Prop) : Prop :=
  exists a, m = Ok a /\ P a.

Module Py.

(** Python's [float] is IEEE 754 binary64. *)
Definition prec : Z := 53.
Definition emax : Z := 1024.
Definition float : Type := spec_float.

Definition fadd : float -> float -> float := SFadd prec emax.
Definition fmul : float -> float -> float := SFmul prec emax.

(** [float(n)] for an integer [n]: the nearest binary64 value, ties to
    even; an integer too large for a float raises [OverflowError]. *)
Definition float_of_int (n : Z) : result float :=
  match binary_normalize prec emax n 0 false with
  | S754_infinity _ => Raise OverflowError
  | f => Ok f
  end.

(** An integer as an unrounded significand with exponent 0; what the
    correctly rounded integer division starts from. *)
Definition exact_int (n : Z) : float :=
  match n with
  | Z0 => S754_zero false
  | Zpos p => S754_finite false p 0
  | Zneg p => S754_finite true p 0
  end.

(** [a / b] on integers (true division): the exact quotient rounded once
    to binary64. *)
Definition int_truediv (a b : Z) : result float :=
  if b =? 0 then Raise ZeroDivisionError
  else
    match SFdiv prec emax (exact_int a) (exact_int b) with
    | S754_infinity _ => Raise OverflowError
    | f => Ok f
    end.

(** [n + x] and [x * n] with [n] an integer and [x] a float: the integer is
    converted first. *)
Definition int_add_float (n : Z) (x : float) : result float :=
  f ← float_of_int n; Ok (fadd f x).

Definition float_mul_int (x : float) (n : Z) : result float :=
  f ← float_of_int n; Ok (fmul x f).

(** [int(x)]: truncation toward zero; infinities and NaN raise. *)
Definition int_of_float (x : float) : result Z :=
  match x with
  | S754_zero _ => Ok 0
  | S754_finite s m e =>
      let v := if 0 <=? e then Z.pos m * 2 ^ e else Z.pos m / 2 ^ (- e) in
      Ok (if s then - v else v)
  | S754_infinity _ => Raise OverflowError
  | S754_nan => Raise ValueError
  end.

(** [range(a, b)]. *)
Definition range (a b : Z) : list Z :=
  map (fun i => a + Z.of_nat i) (seq 0 (Z.to_nat (b - a))).

End Py.

(* ===================================================================== *)
(** * Pillow rasters                                                      *)
(* ===================================================================== *)

(** An RGBA pixel, the four-tuple the script passes as [fill]. *)
Record rgba : Type := RGBA { red : Z; green : Z; blue : Z; alpha : Z }.

(** An image: its [size] (width, height) and the value of each pixel.
    Only the pixels inside the size are part of the image; [getpixel] is the
    accessor that checks it. *)
Record Image (P : Type) : Type := mkImage {
  size_of : Z * Z;
  pixel : Z -> Z -> P
}.
Arguments mkImage {P} size_of pixel.
Arguments size_of {P} _.
Arguments pixel {P} _ _ _.

Definition width {P} (im : Image P) : Z := fst (size_of im).
Definition height {P} (im : Image P) : Z := snd (size_of im).

Definition in_bounds {P} (im : Image P) (x y : Z) : bool :=
  (0 <=? x) && (x <? width im) && (0 <=? y) && (y <? height im).

Definition getpixel {P} (im : Image P) (x y : Z) : option P :=
  if in_bounds im x y then Some (pixel im x y) else None.

(** [Image.new(mode, size, color)]. *)
Definition Image_new {P} (size : Z * Z) (color : P) : Image P :=
  mkImage size (fun _ _ => color).

(** Every [ImageDraw] call on an image whose mode is the drawing mode writes
    the ink into each covered pixel of the image: the old value, alpha
    included, is replaced, nothing is blended.  Pixels outside the image are
    clipped away.  The ink is stored as it is given: this is Pillow's
    behaviour for channels that are 8-bit values, 0 to 255, the only ones the
    script passes; Pillow clips a channel outside that range, which is not
    modelled, so a property about arbitrary colours asks for 8-bit ones. *)
Definition paint {P} (im : Image P) (covers : Z -> Z -> bool) (ink : P) : Image P :=
  mkImage (size_of im)
    (fun x y => if in_bounds im x y && covers x y then ink else pixel im x y).

(** [Image.putalpha(alpha)] on an RGBA image: the band of the mask replaces
    the alpha band in place; the colour bands stay.  Pillow refuses a mask of
    another size. *)
Definition putalpha (im : Image rgba) (mask : Image Z) : result (Image rgba) :=
  if decide (size_of mask = size_of im) then
    Ok (mkImage (size_of im)
          (fun x y =>
             let p := pixel im x y in
             RGBA (red p) (green p) (blue p) (pixel mask x y)))
  else Raise ValueError.

(** The smallest upright rectangle around a list of points. *)
Definition in_bbox (pts : list (Z * Z)) (x y : Z) : bool :=
  existsb (fun p => fst p <=? x) pts && existsb (fun p => x <=? fst p) pts &&
  existsb (fun p => snd p <=? y) pts && existsb (fun p => y <=? snd p) pts.

(** The part of a rounded rectangle that no corner arc touches: the columns
    strictly between the arcs over the full height, and the rows strictly
    between the arcs over the full width. *)
Definition in_cross (p0 p1 : Z * Z) (radius x y : Z) : bool :=
  ((fst p0 + radius <? x) && (x <? fst p1 - radius) &&
   (snd p0 <=? y) && (y <=? snd p1))
  || ((fst p0 <=? x) && (x <=? fst p1) &&
      (snd p0 + radius <? y) && (y <? snd p1 - radius)).

(** Resampling filters of [Image.resize]. *)
Inductive resampling : Type := NEAREST | BOX | BILINEAR | HAMMING | BICUBIC | LANCZOS.

(** Pillow's compiled core, as far as the script relies on it.  Which pixels
    a shape covers is decided by the C rasterizer; the script's behaviour
    rests on four facts about it, valid for every release: a horizontal line
    of width 1 covers its row between its end points, both included; a filled
    polygon stays inside the bounding box of its vertices; a filled rounded
    rectangle stays inside its two corner points and covers at least the
    cross of columns and rows between its arcs.  The resampling kernel and
    the PNG encoder are functions of the image alone. *)
Class Pillow : Type := {
  line_covers : Z * Z -> Z * Z -> Z -> Z -> bool;
  polygon_covers : list (Z * Z) -> Z -> Z -> bool;
  rounded_rectangle_covers : Z * Z -> Z * Z -> Z -> Z -> Z -> bool;
  resample : resampling -> Image rgba -> Z * Z -> Z -> Z -> rgba;
  png_encode : Image rgba -> list Byte.byte;
  line_horizontal : forall xa xb y x y',
    line_covers (xa, y) (xb, y) x y'
    = (y' =? y) && (Z.min xa xb <=? x) && (x <=? Z.max xa xb);
  polygon_in_bbox : forall pts x y,
    polygon_covers pts x y = true -> in_bbox pts x y = true;
  rounded_rectangle_in_bbox : forall p0 p1 radius x y,
    rounded_rectangle_covers p0 p1 radius x y = true ->
    in_bbox [p0; p1] x y = true;
  rounded_rectangle_cross : forall p0 p1 radius x y,
    0 <= radius -> in_cross p0 p1 radius x y = true ->
    rounded_rectangle_covers p0 p1 radius x y = true
}.

Section Drawing.
Context `{Pillow}.

(** [ImageDraw.line([p, q], fill)], [ImageDraw.polygon(pts, fill)] and
    [ImageDraw.rounded_rectangle([p0, p1], radius, fill)]. *)
Definition draw_line {P} (im : Image P) (p q : Z * Z) (fill : P) : Image P :=
  paint im (line_covers p q) fill.

Definition draw_polygon {P} (im : Image P) (pts : list (Z * Z)) (fill : P) : Image P :=
  paint im (polygon_covers pts) fill.

Definition draw_rounded_rectangle {P} (im : Image P) (p0 p1 : Z * Z)
    (radius : Z) (fill : P) : Image P :=
  paint im (rounded_rectangle_covers p0 p1 radius) fill.

(** [Image.resize(size, resample)]. *)
Definition resize (im : Image rgba) (size : Z * Z) (f : resampling) : Image rgba :=
  mkImage size (resample f im size).

(* ===================================================================== *)
(** * The script: lines 5 to 86, the rendering                            *)
(* ===================================================================== *)

Definition size : Z := 1024.

(** Line 6: [img = Image.new('RGBA', (size, size), (0, 0, 0, 0))]. *)
Definition img_new : Image rgba := Image_new (size, size) (RGBA 0 0 0 0).

(** Lines 14 to 17: one colour channel of a row,
    [int(top + t * (bottom - top))]. *)
Definition gradient_channel (top bottom : Z) (t : Py.float) : result Z :=
  d ← Py.float_mul_int t (bottom - top);
  s ← Py.int_add_float top d;
  Py.int_of_float s.

(** Lines 14 to 18: the fill of row [y]. *)
Definition row_fill (y0 y1 : Z) (fill_top fill_bottom : Z * Z * Z) (y : Z)
    : result rgba :=
  let '(top_r, top_g, top_b) := fill_top in
  let '(bottom_r, bottom_g, bottom_b) := fill_bottom in
  t ← Py.int_truediv (y - y0) (y1 - y0);
  r ← gradient_channel top_r bottom_r t;
  g ← gradient_channel top_g bottom_g t;
  b ← gradient_channel top_b bottom_b t;
  Ok (RGBA r g b 255).

(** Lines 13 to 18: the loop over the rows; each turn draws one line. *)
Fixpoint rounded_rect_rows (im : Image rgba) (x0 y0 x1 y1 : Z)
    (fill_top fill_bottom : Z * Z * Z) (rows : list Z) : result (Image rgba) :=
  match rows with
  | [] => Ok im
  | y :: rows' =>
      fill ← row_fill y0 y1 fill_top fill_bottom y;
      rounded_rect_rows (draw_line im (x0, y) (x1, y) fill)
        x0 y0 x1 y1 fill_top fill_bottom rows'
  end.

(** Lines 10 to 18: [rounded_rect(draw, xy, radius, fill_top, fill_bottom)].
    The [draw] object is bound to the image, so the image is what changes. *)
Definition rounded_rect (im : Image rgba) (xy : Z * Z * Z * Z) (radius : Z)
    (fill_top fill_bottom : Z * Z * Z) : result (Image rgba) :=
  let '(x0, y0, x1, y1) := xy in
  rounded_rect_rows im x0 y0 x1 y1 fill_top fill_bottom (Py.range y0 y1).

(** Lines 21 to 23. *)
Definition fill_top : Z * Z * Z := (60, 130, 246).
Definition fill_bottom : Z * Z * Z := (37, 78, 192).

Definition img_gradient : result (Image rgba) :=
  rounded_rect img_new (0, 0, size, size) 180 fill_top fill_bottom.

(** Lines 26 to 28: the mask. *)
Definition mask : Image Z :=
  draw_rounded_rectangle (Image_new (size, size) 0) (0, 0) (size - 1, size - 1) 220 255.

(** Line 29: [img.putalpha(mask)]. *)
Definition img_clipped : result (Image rgba) :=
  im ← img_gradient; putalpha im mask.

(** Lines 33 to 37. *)
Definition doc_left : Z := 280.
Definition doc_top : Z := 160.
Definition doc_right : Z := 744.
Definition doc_bottom : Z := 864.
Definition corner_fold : Z := 120.

(** Lines 40 to 46 and 50 to 54. *)
Definition doc_points : list (Z * Z) :=
  [ (doc_left, doc_top);
    (doc_right - corner_fold, doc_top);
    (doc_right, doc_top + corner_fold);
    (doc_right, doc_bottom);
    (doc_left, doc_bottom) ].

Definition fold_points : list (Z * Z) :=
  [ (doc_right - corner_fold, doc_top);
    (doc_right, doc_top + corner_fold);
    (doc_right - corner_fold, doc_top + corner_fold) ].

(** Lines 62, 71, 73 to 77 and 81 to 85. *)
Definition line_color : rgba := RGBA 120 160 220 160.
Definition md_color : rgba := RGBA 37 78 192 80.

Definition m_points : list (Z * Z) :=
  [ (380, 680); (420, 680); (460, 730); (500, 680); (540, 680);
    (540, 780); (500, 780); (500, 720); (460, 770); (420, 720);
    (420, 780); (380, 780) ].

Definition arrow_points : list (Z * Z) :=
  [ (570, 680); (660, 680); (660, 740);
    (690, 740); (615, 790); (540, 740);
    (570, 740) ].

(** Lines 47 to 86: the nine drawing calls on the clipped image, in the
    script's order. *)
Definition draw_glyphs (im : Image rgba) : Image rgba :=
  let im := draw_polygon im doc_points (RGBA 255 255 255 230) in
  let im := draw_polygon im fold_points (RGBA 200 220 255 200) in
  let im := draw_rounded_rectangle im (340, 340) (700, 380) 8 (RGBA 60 130 246 200) in
  let im := draw_rounded_rectangle im (340, 420) (680, 448) 6 line_color in
  let im := draw_rounded_rectangle im (340, 478) (640, 506) 6 line_color in
  let im := draw_rounded_rectangle im (340, 536) (700, 564) 6 line_color in
  let im := draw_rounded_rectangle im (340, 594) (580, 622) 6 line_color in
  let im := draw_polygon im m_points md_color in
  draw_polygon im arrow_points md_color.

(** The image as it stands at line 86, the one line 91 saves. *)
Definition img_master : result (Image rgba) :=
  im ← img_clipped; Ok (draw_glyphs im).

(** Line 94: [img_512 = img.resize((512, 512), Image.LANCZOS)]. *)
Definition img_512_of (im : Image rgba) : Image rgba := resize im (512, 512) LANCZOS.

End Drawing.

(* ===================================================================== *)
(** * The operating system                                                *)
(* ===================================================================== *)

Module OS.

(** An absolute path, as the list of its components below the root. *)
Definition path : Type := list string.

(** A directory or a regular file, each with its write permission for the
    user that runs the script. *)
Inductive node : Type :=
  | Dir (writable : bool)
  | File (writable : bool) (data : list Byte.byte).

(** The file tree: the root directory, and the node at each other path.
    (In a real tree the parent of a node is a directory; no operation
    below breaks this, and none needs it.) *)
Record filesystem : Type := mkFS {
  root_writable : bool;
  nodes : gmap path node
}.

(** What the process did to the outside, in order. *)
Inductive syscall : Type :=
  | SysMkdir (p : path)
  | SysWrite (p : path) (data : list Byte.byte)
  | SysPrint (s : string).

Record world : Type := mkWorld {
  fs : filesystem;
  calls : list syscall
}.

(** A statement with effects: it changes the world, and returns or
    raises.  What was done before an exception stays done. *)
Definition IO (A : Type) : Type := world -> result A * world.

#[global] Instance IO_ret : MRet IO := fun _ a w => (Ok a, w).
#[global] Instance IO_bind : MBind IO := fun _ _ k m w =>
  match m w with
  | (Ok a, w') => k a w'
  | (Raise e, w') => (Raise e, w')
  end.

(** A pure computation as a statement. *)
Definition lift {A} (m : result A) : IO A := fun w => (m, w).

(** [try: m  except e: handler]. *)
Definition try_except {A} (m : IO A) (handler : exn -> IO A) : IO A := fun w =>
  match m w with
  | (Ok a, w') => (Ok a, w')
  | (Raise e, w') => handler e w'
  end.

(** ** Paths *)

(** The pieces of a string between slashes; [acc] is the piece being read. *)
Fixpoint split_slash (s acc : string) : list string :=
  match s with
  | EmptyString => [acc]
  | String c s' =>
      if Ascii.eqb c "/"%char then acc :: split_slash s' EmptyString
      else split_slash s' (acc +:+ String c EmptyString)
  end.

(** The components of an absolute path name; empty pieces (doubled or
    trailing slashes) name nothing. *)
Definition components (name : string) : path :=
  filter (fun c => c ≠ EmptyString) (split_slash name EmptyString).

Definition starts_with_slash (s : string) : bool :=
  match s with
  | String c _ => Ascii.eqb c "/"%char
  | EmptyString => false
  end.

Fixpoint ends_with_slash (s : string) : bool :=
  match s with
  | EmptyString => false
  | String c EmptyString => Ascii.eqb c "/"%char
  | String _ s' => ends_with_slash s'
  end.

(** [os.path.join(a, b)]. *)
Definition join (a b : string) : string :=
  if starts_with_slash b then b
  else if (String.length a =? 0)%nat || ends_with_slash a then a +:+ b
  else a +:+ "/" +:+ b.

Definition parent (p : path) : path := removelast p.

(** ** The file tree *)

Definition node_at (t : filesystem) (p : path) : option node :=
  match p with
  | [] => Some (Dir (root_writable t))
  | _ => nodes t !! p
  end.

Definition put (t : filesystem) (p : path) (n : node) : filesystem :=
  mkFS (root_writable t) (<[p := n]> (nodes t)).

(** [os.path.exists] and [os.path.isdir]. *)
Definition exists_ (t : filesystem) (p : path) : bool :=
  match node_at t p with Some _ => true | None => false end.

Definition isdir (t : filesystem) (p : path) : bool :=
  match node_at t p with Some (Dir _) => true | _ => false end.

(** [mkdir(2)]: the name must be free and the parent a writable directory. *)
Definition mkdir_fs (t : filesystem) (p : path) : result filesystem :=
  match node_at t p with
  | Some _ => Raise FileExistsError
  | None =>
      match node_at t (parent p) with
      | Some (Dir true) => Ok (put t p (Dir true))
      | Some (Dir false) => Raise PermissionError
      | Some (File _ _) => Raise NotADirectoryError
      | None => Raise FileNotFoundError
      end
  end.

(** Opening [p] for writing and writing [data]: an existing file must be
    writable and is replaced; a new file needs a writable parent
    directory.  The failures are those of opening the file; once it is open
    the bytes are written.  A device that fails while writing (a full disk,
    an I/O error) is outside this tree of names and permissions. *)
Definition write_fs (t : filesystem) (p : path) (data : list Byte.byte)
    : result filesystem :=
  match node_at t p with
  | Some (File true _) => Ok (put t p (File true data))
  | Some (File false _) => Raise PermissionError
  | Some (Dir _) => Raise IsADirectoryError
  | None =>
      match node_at t (parent p) with
      | Some (Dir true) => Ok (put t p (File true data))
      | Some (Dir false) => Raise PermissionError
      | Some (File _ _) => Raise NotADirectoryError
      | None => Raise FileNotFoundError
      end
  end.

(** ** The calls of the script *)

Definition mkdir (p : path) : IO unit := fun w =>
  match mkdir_fs (fs w) p with
  | Ok t => (Ok tt, mkWorld t (calls w ++ [SysMkdir p]))
  | Raise e => (Raise e, w)
  end.

Definition write_file (p : path) (data : list Byte.byte) : IO unit := fun w =>
  match write_fs (fs w) p data with
  | Ok t => (Ok tt, mkWorld t (calls w ++ [SysWrite p data]))
  | Raise e => (Raise e, w)
  end.

Definition print (s : string) : IO unit := fun w =>
  (Ok tt, mkWorld (fs w) (calls w ++ [SysPrint s])).

(** [os.makedirs(name, exist_ok)] on the reversed components of [name], so
    that the head of the path is the tail of the list; its last statement,
    the guarded [mkdir], is [mkdir_exist_ok]:
<<
    head, tail = path.split(name)
    if head and tail and not path.exists(head):
        try: makedirs(head, exist_ok=exist_ok)
        except FileExistsError: pass
    try: mkdir(name, mode)
    except OSError:
        if not exist_ok or not path.isdir(name): raise
>> *)
Definition mkdir_exist_ok (name : path) (exist_ok : bool) : IO unit :=
  try_except (mkdir name)
    (fun e w =>
       if negb exist_ok || negb (isdir (fs w) name) then (Raise e, w)
       else (Ok tt, w)).

Fixpoint makedirs_rev (rev_name : path) (exist_ok : bool) : IO unit :=
  let name := rev rev_name in
  (match rev_name with
   | [] => mret tt
   | _ :: rev_head =>
       fun w =>
         if exists_ (fs w) (rev rev_head) then (Ok tt, w)
         else
           try_except (makedirs_rev rev_head exist_ok)
             (fun e => match e with
                       | FileExistsError => mret tt
                       | _ => lift (Raise e)
                       end) w
   end) ;;
  mkdir_exist_ok name exist_ok.

Definition makedirs (name : string) (exist_ok : bool) : IO unit :=
  makedirs_rev (rev (components name)) exist_ok.

End OS.

(* ===================================================================== *)
(** * The script: lines 88 to 97, saving                                  *)
(* ===================================================================== *)

Section Saving.
Context `{Pillow}.

(** [Image.save(name, 'PNG')]: the encoded image is written to the file. *)
Definition Image_save (im : Image rgba) (name : string) : OS.IO unit :=
  OS.write_file (OS.components name) (png_encode im).

Definition output_dir : string :=
  "/Users/kenefe/LOCAL/momo-agent/BrainDown/Resources/Assets.xcassets/AppIcon.appiconset".

Definition master_name : string := OS.join output_dir "icon_512x512@2x.png".
Definition derivative_name : string := OS.join output_dir "icon_512x512.png".

(** The whole script. *)
Definition main : OS.IO unit :=
  img ← OS.lift img_master;
  OS.makedirs output_dir true ;;
  Image_save img master_name ;;
  let img_512 := img_512_of img in
  Image_save img_512 derivative_name ;;
  OS.print "Icon generated successfully!".

End Saving.

(* ===================================================================== *)
(** * A reference rasterizer                                              *)
(* ===================================================================== *)

(** One rasterizer that has the four properties [Pillow] asks for: shapes by
    their textbook geometry, nearest-sample resizing, and the size followed
    by the raw pixel bytes as the file format.  It shows the interface can be
    met and gives the properties below concrete instances; nothing is proved
    about the script from it alone. *)
Module Reference.

Definition line_covers (p q : Z * Z) (x y : Z) : bool :=
  let '(xa, ya) := p in
  let '(xb, yb) := q in
  if ya =? yb then (y =? ya) && (Z.min xa xb <=? x) && (x <=? Z.max xa xb)
  else
    in_bbox [p; q] x y &&
    (2 * Z.abs ((x - xa) * (yb - ya) - (y - ya) * (xb - xa))
     <=? Z.max (Z.abs (xb - xa)) (Z.abs (yb - ya))).

(** Does the half line from [(x, y)] to the right cross the edge? *)
Definition edge_crosses (x y : Z) (e : (Z * Z) * (Z * Z)) : bool :=
  let '((xa, ya), (xb, yb)) := e in
  if (ya <=? y) && (y <? yb) then
    (x - xa) * (yb - ya) <? (xb - xa) * (y - ya)
  else if (yb <=? y) && (y <? ya) then
    (x - xb) * (ya - yb) <? (xa - xb) * (y - yb)
  else false.

Definition edges (pts : list (Z * Z)) : list ((Z * Z) * (Z * Z)) :=
  zip pts (tail pts ++ take 1 pts).

(** Even-odd rule. *)
Definition polygon_covers (pts : list (Z * Z)) (x y : Z) : bool :=
  in_bbox pts x y &&
  fold_right xorb false (map (edge_crosses x y) (edges pts)).

Definition clamp (lo hi v : Z) : Z := Z.max lo (Z.min hi v).

(** Inside the two corner points, and within [radius] of the rectangle
    shrunk by [radius] on every side. *)
Definition rounded_rectangle_covers (p0 p1 : Z * Z) (radius x y : Z) : bool :=
  in_bbox [p0; p1] x y &&
  (in_cross p0 p1 radius x y ||
   (let cx := clamp (fst p0 + radius) (fst p1 - radius) x in
    let cy := clamp (snd p0 + radius) (snd p1 - radius) y in
    (x - cx) * (x - cx) + (y - cy) * (y - cy) <=? radius * radius)).

Definition resample (f : resampling) (im : Image rgba) (size : Z * Z)
    (x y : Z) : rgba :=
  pixel im (x * width im / fst size) (y * height im / snd size).

Definition byte_of (n : Z) : Byte.byte :=
  match Byte.of_N (Z.to_N (n mod 256)) with
  | Some b => b
  | None => Byte.x00
  end.

Definition word_of (n : Z) : list Byte.byte :=
  [byte_of (n / 16777216); byte_of (n / 65536); byte_of (n / 256); byte_of n].

Definition pixel_bytes (p : rgba) : list Byte.byte :=
  [byte_of (red p); byte_of (green p); byte_of (blue p); byte_of (alpha p)].

Definition png_encode (im : Image rgba) : list Byte.byte :=
  word_of (width im) ++ word_of (height im) ++
  flat_map (fun y => flat_map (fun x => pixel_bytes (pixel im x y))
                       (Py.range 0 (width im)))
           (Py.range 0 (height im)).

End Reference.

(* ===================================================================== *)
(** * Vocabulary of the properties                                        *)
(* ===================================================================== *)

(** Truncation of a rational toward zero. *)
Definition Qtruncate (q : Q) : Z := Z.quot (Qnum q) (Z.pos (Qden q)).

(** [top + t * (bottom - top)] in exact arithmetic with [t = y / 1024],
    truncated to an integer. *)
Definition exact_channel (top bottom y : Z) : Z :=
  Qtruncate (inject_Z top + (y # 1024) * inject_Z (bottom - top))%Q.

(** The fill of row [y] of the background, by exact interpolation from
    (60, 130, 246) to (37, 78, 192). *)
Definition gradient_pixel (y : Z) : rgba :=
  RGBA (exact_channel 60 37 y) (exact_channel 130 78 y) (exact_channel 246 192 y) 255.

#[global] Instance exn_eq_dec : EqDecision exn.
Proof. solve_decision. Defined.
#[global] Instance rgba_eq_dec : EqDecision rgba.
Proof. solve_decision. Defined.
#[global] Instance result_eq_dec {A} `{EqDecision A} : EqDecision (result A).
Proof. solve_decision. Defined.

Section Vocabulary.
Context `{Pillow}.

(** The clip region: the pixels the mask's rounded rectangle covers; and the
    inner rectangle away from its corners. *)
Definition clip_covers (x y : Z) : bool :=
  rounded_rectangle_covers (0, 0) (size - 1, size - 1) 220 x y.

Definition inner_rectangle (x y : Z) : bool :=
  in_cross (0, 0) (size - 1, size - 1) 220 x y.

(** The nine glyph shapes with their fills, bottom first. *)
Definition glyphs : list ((Z -> Z -> bool) * rgba) :=
  [ (polygon_covers doc_points, RGBA 255 255 255 230);
    (polygon_covers fold_points, RGBA 200 220 255 200);
    (rounded_rectangle_covers (340, 340) (700, 380) 8, RGBA 60 130 246 200);
    (rounded_rectangle_covers (340, 420) (680, 448) 6, line_color);
    (rounded_rectangle_covers (340, 478) (640, 506) 6, line_color);
    (rounded_rectangle_covers (340, 536) (700, 564) 6, line_color);
    (rounded_rectangle_covers (340, 594) (580, 622) 6, line_color);
    (polygon_covers m_points, md_color);
    (polygon_covers arrow_points, md_color) ].

(** The alpha each glyph is filled with, in the same order: the document
    body, the fold, the heading, the four body lines, the M and the arrow. *)
Definition literal_alphas : list Z := [230; 200; 200; 160; 160; 160; 160; 80; 80].

Definition covered_by_glyph (x y : Z) : bool :=
  existsb (fun g : (Z -> Z -> bool) * rgba => fst g x y) glyphs.

(** The fill of the last shape of [gs] that covers the pixel, if any. *)
Definition topmost (gs : list ((Z -> Z -> bool) * rgba)) (x y : Z) : option rgba :=
  fold_left (fun (acc : option rgba) (g : (Z -> Z -> bool) * rgba) =>
               if fst g x y then Some (snd g) else acc) gs None.

End Vocabulary.

(** The two output files and their directory, as paths. *)
Definition output_path : OS.path := OS.components output_dir.
Definition master_path : OS.path := OS.components master_name.
Definition derivative_path : OS.path := OS.components derivative_name.

(** In a file tree, whatever exists lies in a directory. *)
Definition tree_shaped (t : OS.filesystem) : Prop :=
  forall p n, p <> [] -> OS.node_at t p = Some n -> OS.isdir t (OS.parent p) = true.

(** [created w w' ds]: from [w] to [w'] the process made the directories
    [ds], in this order, each at a free name, and did nothing else. *)
Definition created (w w' : OS.world) (ds : list OS.path) : Prop :=
  OS.calls w' = OS.calls w ++ map OS.SysMkdir ds /\
  OS.root_writable (OS.fs w') = OS.root_writable (OS.fs w) /\
  (forall p, OS.node_at (OS.fs w') p
             = if bool_decide (p ∈ ds) then Some (OS.Dir true)
               else OS.node_at (OS.fs w) p) /\
  Forall (fun d => OS.node_at (OS.fs w) d = None /\ d <> []) ds.

(** [path_ready t P k]: the first [k] components of [P] are directories,
    nothing exists below them on the path, and if anything is left to make,
    the deepest of these directories is writable. *)
Definition path_ready (t : OS.filesystem) (P : OS.path) (k : nat) : Prop :=
  (k <= length P)%nat /\
  (forall n, (n <= k)%nat -> OS.isdir t (take n P) = true) /\
  (forall n, (k < n <= length P)%nat -> OS.node_at t (take n P) = None) /\
  ((k < length P)%nat -> OS.node_at t (take k P) = Some (OS.Dir true)).

(** A file can be written at [p]: a writable file is there, or nothing is and
    the directory above is writable. *)
Definition writable_target (t : OS.filesystem) (p : OS.path) : Prop :=
  (exists old, OS.node_at t p = Some (OS.File true old)) \/
  (OS.node_at t p = None /\ OS.node_at t (OS.parent p) = Some (OS.Dir true)).

Section Outcomes.
Context `{Pillow}.

(** The four ways a run of the script can end once the image [m] is
    rendered, with the result and the world it leaves: [os.makedirs] raises;
    the first save raises; the second save raises, after the first file was
    written; or everything succeeds. *)
Inductive run_outcome (m : Image rgba) (w : OS.world) : result unit -> OS.world -> Prop :=
  | makedirs_raised (e : exn) (w1 : OS.world) (ds : list OS.path) :
      created w w1 ds ->
      Forall (fun d => d `prefix_of` output_path) ds ->
      run_outcome m w (Raise e) w1
  | master_save_raised (e : exn) (w1 : OS.world) (ds : list OS.path) :
      created w w1 ds ->
      Forall (fun d => d `prefix_of` output_path) ds ->
      OS.isdir (OS.fs w1) output_path = true ->
      ~ writable_target (OS.fs w1) master_path ->
      run_outcome m w (Raise e) w1
  | derivative_save_raised (e : exn) (w1 : OS.world) (ds : list OS.path) :
      created w w1 ds ->
      Forall (fun d => d `prefix_of` output_path) ds ->
      OS.isdir (OS.fs w1) output_path = true ->
      writable_target (OS.fs w1) master_path ->
      ~ writable_target
          (OS.put (OS.fs w1) master_path (OS.File true (png_encode m)))
          derivative_path ->
      run_outcome m w (Raise e)
        (OS.mkWorld
           (OS.put (OS.fs w1) master_path (OS.File true (png_encode m)))
           (OS.calls w1 ++ [OS.SysWrite master_path (png_encode m)]))
  | completed (w1 : OS.world) (ds : list OS.path) :
      created w w1 ds ->
      Forall (fun d => d `prefix_of` output_path) ds ->
      OS.isdir (OS.fs w1) output_path = true ->
      writable_target (OS.fs w1) master_path ->
      writable_target
        (OS.put (OS.fs w1) master_path (OS.File true (png_encode m)))
        derivative_path ->
      run_outcome m w (Ok tt)
        (OS.mkWorld
           (OS.put
              (OS.put (OS.fs w1) master_path (OS.File true (png_encode m)))
              derivative_path (OS.File true (png_encode (img_512_of m))))
           (OS.calls w1 ++
            [OS.SysWrite master_path (png_encode m);
             OS.SysWrite derivative_path (png_encode (img_512_of m));
             OS.SysPrint "Icon generated successfully!"])).

End Outcomes.

(** The calls a run added to the trace. *)
Definition new_calls (w w' : OS.world) (cs : list OS.syscall) : Prop :=
  OS.calls w' = OS.calls w ++ cs.

Definition writes_to (p : OS.path) (cs : list OS.syscall) : Prop :=
  exists data, In (OS.SysWrite p data) cs.

(** Where each glyph can reach: the bounds (left, right, top, bottom) of each
    shape, in drawing order. *)
Definition glyph_boxes : list (Z * Z * Z * Z) :=
  [ (280, 744, 160, 864); (624, 744, 160, 280); (340, 700, 340, 380);
    (340, 680, 420, 448); (340, 640, 478, 506); (340, 700, 536, 564);
    (340, 580, 594, 622); (380, 540, 680, 780); (540, 690, 680, 790) ].

(** ** Three file trees to run the script on *)

(** The directories along a path, all writable. *)
Definition dirs_along (P : OS.path) : gmap OS.path OS.node :=
  list_to_map (map (fun n => (take n P, OS.Dir true)) (seq 1 (length P))).

(** An empty disk with a writable root. *)
Definition fresh_world : OS.world :=
  OS.mkWorld (OS.mkFS true ∅) [].

(** The destination is there, and holds older, writable versions of both
    files. *)
Definition rerun_world : OS.world :=
  OS.mkWorld
    (OS.mkFS true
       (<[master_path := OS.File true [Byte.x00]]>
          (<[derivative_path := OS.File true [Byte.x01]]>
             (dirs_along output_path))))
    [].

(** The destination is there but read-only; it holds a writable master file
    and no derivative. *)
Definition readonly_world : OS.world :=
  OS.mkWorld
    (OS.mkFS true
       (<[master_path := OS.File true [Byte.x00]]>
          (<[output_path := OS.Dir false]> (dirs_along output_path))))
    [].

(* ===================================================================== *)
(** * Vocabulary of the further properties                                *)
(* ===================================================================== *)

(** Floats can be compared. *)
#[global] Instance spec_float_eq_dec : EqDecision spec_float.
Proof. solve_decision. Defined.

(** Two rows of the background, one below the other: each channel of [q] is
    the channel of [p] or one less, within the two end colours. *)
Definition within_one_step (p q : rgba) : bool :=
  (red p - 1 <=? red q) && (red q <=? red p) &&
  (green p - 1 <=? green q) && (green q <=? green p) &&
  (blue p - 1 <=? blue q) && (blue q <=? blue p) &&
  (37 <=? red q) && (red p <=? 60) &&
  (78 <=? green q) && (green p <=? 130) &&
  (192 <=? blue q) && (blue p <=? 246).

(** A colour whose three channels are 8-bit values, and a coordinate in the
    range of a C [int]: the arguments Pillow takes as they are. *)
Definition eight_bit (c : Z * Z * Z) : Prop :=
  let '(r, g, b) := c in 0 <= r <= 255 /\ 0 <= g <= 255 /\ 0 <= b <= 255.

Definition int32 (v : Z) : Prop := -2147483648 <= v <= 2147483647.

(** Drawing a list of shapes with their fills, first to last. *)
Definition draw_shapes (gs : list ((Z -> Z -> bool) * rgba)) (im : Image rgba)
    : Image rgba :=
  fold_left (fun im g => paint im (fst g) (snd g)) gs im.

(** How a run may change the node at [p]: not at all, or, at one of the two
    output paths, from a writable file to a writable file. *)
Definition kept_or_rewritten (p : OS.path) (n n' : OS.node) : Prop :=
  n' = n \/
  ((p = master_path \/ p = derivative_path) /\
   exists old new, n = OS.File true old /\ n' = OS.File true new).

(** The directories of [P] below its first [k] components, shortest first:
    each one is the parent of the next. *)
Definition missing_dirs (P : OS.path) (k : nat) : list OS.path :=
  map (fun n => take n P) (seq (S k) (length P - k)).

(** A name without a slash in it. *)
Fixpoint slash_free (s : string) : bool :=
  match s with
  | EmptyString => true
  | String c s' => negb (Ascii.eqb c "/"%char) && slash_free s'
  end.

(** An empty disk whose root is read-only. *)
Definition locked_world : OS.world :=
  OS.mkWorld (OS.mkFS false ∅) [].

(** The destination is there and writable, and a directory sits at the path
    of the master file. *)
Definition squatted_world : OS.world :=
  OS.mkWorld
    (OS.mkFS true (<[master_path := OS.Dir true]> (dirs_along output_path)))
    [].

(* ===================================================================== *)
(** * Properties: the background gradient                                 *)
(* ===================================================================== *)

(** Boolean tests as arithmetic facts. *)
Ltac bools :=
  repeat match goal with
  | H : _ && _ = true |- _ => apply andb_prop in H; destruct H
  | H : _ || _ = true |- _ => apply orb_prop in H; destruct H
  | H : (_ <=? _) = true |- _ => apply Z.leb_le in H
  | H : (_ <? _) = true |- _ => apply Z.ltb_lt in H
  | H : (_ =? _) = true |- _ => apply Z.eqb_eq in H
  | H : (_ <=? _) = false |- _ => apply Z.leb_gt in H
  | H : (_ <? _) = false |- _ => apply Z.ltb_ge in H
  | H : (_ =? _) = false |- _ => apply Z.eqb_neq in H
  | H : false = true |- _ => discriminate H
  | H : true = false |- _ => discriminate H
  end.

Lemma elem_of_range (a b y : Z) : y ∈ Py.range a b <-> a <= y < b.
Proof.
  unfold Py.range. rewrite list_elem_of_In, in_map_iff. split.
  - intros (i & <- & Hi). apply in_seq in Hi. lia.
  - intros Hy. exists (Z.to_nat (y - a)). split; [lia |].
    apply in_seq. lia.
Qed.

(** The exact channel value, and its integer form. *)
Lemma exact_channel_quot (top bottom y : Z) :
  exact_channel top bottom y = Z.quot (top * 1024 + y * (bottom - top)) 1024.
Proof.
  unfold exact_channel, Qtruncate. cbn.
  f_equal. lia.
Qed.

(** In binary64 every row of the script's gradient is computed without
    rounding error: the float computation of lines 14 to 17 gives the exact
    interpolation, truncated.  Checked row by row. *)
Lemma rows_exact :
  Forall (fun y => row_fill 0 1024 fill_top fill_bottom y = Ok (gradient_pixel y))
         (Py.range 0 1024).
Proof.
  refine (bool_decide_unpack _ _). vm_compute. exact I.
Qed.

Section Gradient.
Context `{Pillow}.

Lemma in_bounds_paint {P} (im : Image P) covers ink x y :
  in_bounds (paint im covers ink) x y = in_bounds im x y.
Proof. reflexivity. Qed.

Lemma in_bounds_iff {P} (im : Image P) x y :
  in_bounds im x y = true <-> 0 <= x < width im /\ 0 <= y < height im.
Proof.
  unfold in_bounds. rewrite !andb_true_iff, !Z.leb_le, !Z.ltb_lt. lia.
Qed.

(** The loop paints each listed row with its fill, between the two end
    columns, and nothing else. *)
Lemma rounded_rect_rows_spec (c : Z -> rgba) x0 y0 x1 y1 ft fb rows :
  Forall (fun y => row_fill y0 y1 ft fb y = Ok (c y)) rows ->
  forall im,
    returns (rounded_rect_rows im x0 y0 x1 y1 ft fb rows) (fun im' =>
      size_of im' = size_of im /\
      forall x y,
        pixel im' x y =
        if in_bounds im x y && bool_decide (y ∈ rows)
           && (Z.min x0 x1 <=? x) && (x <=? Z.max x0 x1)
        then c y else pixel im x y).
Proof.
  induction 1 as [| y rows Hy _ IH]; intros im.
  - exists im. split; [reflexivity |]. split; [reflexivity |].
    intros x y. rewrite bool_decide_eq_false_2 by apply not_elem_of_nil.
    now rewrite andb_false_r.
  - cbn [rounded_rect_rows]. rewrite Hy.
    destruct (IH (draw_line im (x0, y) (x1, y) (c y))) as (im' & Hrun & Hsize & Hpix).
    exists im'. split; [exact Hrun |]. split; [exact Hsize |].
    intros x y'. rewrite Hpix. unfold draw_line. rewrite in_bounds_paint.
    cbn [pixel paint]. rewrite line_horizontal.
    destruct (in_bounds im x y') eqn:Hb; cbn [andb]; [| reflexivity].
    destruct (decide (y' = y)) as [-> | Hne].
    + rewrite Z.eqb_refl. cbn [andb].
      rewrite (bool_decide_eq_true_2 (y ∈ y :: rows)) by apply list_elem_of_here.
      cbn [andb].
      destruct (bool_decide (y ∈ rows)); cbn [andb];
        destruct ((Z.min x0 x1 <=? x) && (x <=? Z.max x0 x1)); reflexivity.
    + apply Z.eqb_neq in Hne as Hneb. rewrite Hneb. cbn [andb].
      destruct (decide (y' ∈ rows)) as [Hin | Hnin].
      * rewrite !bool_decide_eq_true_2; [reflexivity | now apply list_elem_of_further | exact Hin].
      * rewrite !bool_decide_eq_false_2; [reflexivity | | exact Hnin].
        rewrite elem_of_cons. tauto.
Qed.

(** The background after line 23: the canvas keeps its size, and every pixel
    of row [y] holds the exact interpolation of that row, opaque. *)
Lemma img_gradient_spec :
  returns img_gradient (fun g =>
    size_of g = (size, size) /\
    forall x y, 0 <= x < size -> 0 <= y < size -> pixel g x y = gradient_pixel y).
Proof.
  destruct (rounded_rect_rows_spec gradient_pixel 0 0 size size
              fill_top fill_bottom (Py.range 0 size) rows_exact img_new)
    as (g & Hrun & Hsize & Hpix).
  exists g. split; [exact Hrun |]. split; [exact Hsize |].
  intros x y Hx Hy. rewrite Hpix.
  assert (Hb : in_bounds img_new x y = true) by (apply in_bounds_iff; cbn; lia).
  rewrite Hb, bool_decide_eq_true_2 by (apply elem_of_range; lia).
  cbn [andb].
  replace (Z.min 0 size <=? x) with true
    by (symmetry; apply Z.leb_le; unfold size in *; lia).
  replace (x <=? Z.max 0 size) with true
    by (symmetry; apply Z.leb_le; unfold size in *; lia).
  reflexivity.
Qed.

End Gradient.

(* ===================================================================== *)
(** * The reference rasterizer meets the interface                        *)
(* ===================================================================== *)

Lemma in_bbox_two (p0 p1 : Z * Z) (x y : Z) :
  in_bbox [p0; p1] x y = true <->
  (fst p0 <= x \/ fst p1 <= x) /\ (x <= fst p0 \/ x <= fst p1) /\
  (snd p0 <= y \/ snd p1 <= y) /\ (y <= snd p0 \/ y <= snd p1).
Proof.
  unfold in_bbox. cbn [existsb].
  rewrite !andb_true_iff, !orb_true_iff, !Z.leb_le. intuition congruence.
Qed.

Lemma in_cross_in_bbox (p0 p1 : Z * Z) (radius x y : Z) :
  0 <= radius -> in_cross p0 p1 radius x y = true -> in_bbox [p0; p1] x y = true.
Proof.
  intros Hr Hc. apply in_bbox_two. unfold in_cross in Hc. bools; lia.
Qed.

Lemma reference_line_horizontal xa xb y x y' :
  Reference.line_covers (xa, y) (xb, y) x y'
  = (y' =? y) && (Z.min xa xb <=? x) && (x <=? Z.max xa xb).
Proof. unfold Reference.line_covers. now rewrite Z.eqb_refl. Qed.

Lemma reference_polygon_in_bbox pts x y :
  Reference.polygon_covers pts x y = true -> in_bbox pts x y = true.
Proof. unfold Reference.polygon_covers. intros Hc. now apply andb_prop in Hc. Qed.

Lemma reference_rounded_rectangle_in_bbox p0 p1 radius x y :
  Reference.rounded_rectangle_covers p0 p1 radius x y = true ->
  in_bbox [p0; p1] x y = true.
Proof.
  unfold Reference.rounded_rectangle_covers. intros Hc. now apply andb_prop in Hc.
Qed.

Lemma reference_rounded_rectangle_cross p0 p1 radius x y :
  0 <= radius -> in_cross p0 p1 radius x y = true ->
  Reference.rounded_rectangle_covers p0 p1 radius x y = true.
Proof.
  intros Hr Hc. unfold Reference.rounded_rectangle_covers.
  rewrite (in_cross_in_bbox _ _ _ _ _ Hr Hc), Hc. reflexivity.
Qed.

Definition reference_pillow : Pillow := {|
  line_covers := Reference.line_covers;
  polygon_covers := Reference.polygon_covers;
  rounded_rectangle_covers := Reference.rounded_rectangle_covers;
  resample := Reference.resample;
  png_encode := Reference.png_encode;
  line_horizontal := reference_line_horizontal;
  polygon_in_bbox := reference_polygon_in_bbox;
  rounded_rectangle_in_bbox := reference_rounded_rectangle_in_bbox;
  rounded_rectangle_cross := reference_rounded_rectangle_cross
|}.

(* ===================================================================== *)
(** * Claims about the gradient                                           *)
(* ===================================================================== *)

(** C1.  For every row [y] of the 1024 rows of the background, the fill the
    script computes for the row is, channel by channel, the exact value
    [top + t * (bottom - top)] with [t = y / 1024], truncated to an integer,
    from top (60, 130, 246) to bottom (37, 78, 192), with alpha 255; and the
    background holds this fill in every one of the 1024 columns of the
    row. *)
Theorem background_rows_interpolate `{Pillow} (y : Z) :
  0 <= y < 1024 ->
  row_fill 0 1024 fill_top fill_bottom y
  = Ok (RGBA (exact_channel 60 37 y) (exact_channel 130 78 y)
             (exact_channel 246 192 y) 255)
  /\ returns img_gradient (fun g =>
       forall x, 0 <= x < 1024 ->
         getpixel g x y
         = Some (RGBA (exact_channel 60 37 y) (exact_channel 130 78 y)
                      (exact_channel 246 192 y) 255)).
Proof.
  intros Hy. split.
  - pose proof rows_exact as Hrows. rewrite Forall_forall in Hrows.
    apply Hrows, elem_of_range. exact Hy.
  - destruct img_gradient_spec as (g & Hrun & Hsize & Hpix).
    exists g. split; [exact Hrun |]. intros x Hx.
    unfold getpixel.
    assert (Hb : in_bounds g x y = true).
    { apply in_bounds_iff. unfold width, height. rewrite Hsize.
      cbn [fst snd]. unfold size. lia. }
    rewrite Hb, Hpix by (unfold size; lia). reflexivity.
Qed.

Lemma background_rows_interpolate_witness :
  0 <= 512 < 1024 /\
  row_fill 0 1024 fill_top fill_bottom 512 = Ok (RGBA 48 104 219 255) /\
  returns (@img_gradient reference_pillow) (fun g =>
    forall x, 0 <= x < 1024 -> getpixel g x 512 = Some (RGBA 48 104 219 255)).
Proof.
  assert (Hy : 0 <= 512 < 1024) by lia.
  split; [exact Hy |].
  exact (@background_rows_interpolate reference_pillow 512 Hy).
Defined.

(** C5.  In any column of the background, the blue channel never grows from
    one row to a lower one: for rows [y1 <= y2] the blue of row [y2] is at most
    the blue of row [y1].  Each value is the interpolation from 246 towards
    192, so it starts at 246 in row 0, ends at 192 in row 1023 and stays
    between the two. *)
Theorem background_blue_non_increasing `{Pillow} (x y1 y2 : Z) :
  0 <= x < 1024 -> 0 <= y1 -> y1 <= y2 -> y2 <= 1023 ->
  returns img_gradient (fun g =>
    blue (pixel g x y2) <= blue (pixel g x y1) /\
    blue (pixel g x y1) = exact_channel 246 192 y1 /\
    blue (pixel g x y2) = exact_channel 246 192 y2 /\
    blue (pixel g x 0) = 246 /\ blue (pixel g x 1023) = 192 /\
    192 <= blue (pixel g x y2) /\ blue (pixel g x y1) <= 246).
Proof.
  intros Hx H1 H12 H2.
  destruct img_gradient_spec as (g & Hrun & _ & Hpix).
  exists g. split; [exact Hrun |].
  rewrite !Hpix by (unfold size; lia).
  cbn [blue gradient_pixel].
  assert (Hmono : forall a b, a <= b ->
            exact_channel 246 192 b <= exact_channel 246 192 a).
  { intros a b Hab. rewrite !exact_channel_quot.
    apply Z.quot_le_mono; lia. }
  assert (H0 : exact_channel 246 192 0 = 246) by reflexivity.
  assert (Hlast : exact_channel 246 192 1023 = 192) by reflexivity.
  pose proof (Hmono y1 y2 H12). pose proof (Hmono 0 y1 H1).
  pose proof (Hmono y2 1023 H2).
  repeat split; try reflexivity; lia.
Qed.

Lemma background_blue_non_increasing_witness :
  returns (@img_gradient reference_pillow) (fun g =>
    blue (pixel g 7 900) <= blue (pixel g 7 100) /\
    blue (pixel g 7 100) = 240 /\
    blue (pixel g 7 900) = 198 /\
    blue (pixel g 7 0) = 246 /\ blue (pixel g 7 1023) = 192 /\
    192 <= blue (pixel g 7 900) /\ blue (pixel g 7 100) <= 246).
Proof.
  apply (@background_blue_non_increasing reference_pillow 7 100 900); lia.
Defined.

(* ===================================================================== *)
(** * Properties: mask, glyphs and the master image                       *)
(* ===================================================================== *)

Section Composition.
Context `{Pillow}.

Lemma mask_size : size_of mask = (size, size).
Proof. reflexivity. Qed.

Lemma mask_pixel (x y : Z) :
  0 <= x < size -> 0 <= y < size ->
  pixel mask x y = if clip_covers x y then 255 else 0.
Proof.
  intros Hx Hy. unfold mask, draw_rounded_rectangle, clip_covers.
  cbn [pixel paint Image_new].
  replace (in_bounds _ x y) with true; [reflexivity |].
  symmetry. apply in_bounds_iff. cbn. lia.
Qed.

(** After line 29: the colours of the gradient, the alpha of the mask. *)
Lemma img_clipped_spec :
  returns img_clipped (fun c =>
    size_of c = (size, size) /\
    forall x y, 0 <= x < size -> 0 <= y < size ->
      pixel c x y =
      RGBA (exact_channel 60 37 y) (exact_channel 130 78 y)
           (exact_channel 246 192 y) (if clip_covers x y then 255 else 0)).
Proof.
  destruct img_gradient_spec as (g & Hrun & Hsize & Hpix).
  unfold img_clipped. rewrite Hrun. cbn [mbind result_bind].
  unfold putalpha. rewrite decide_True by (now rewrite Hsize).
  eexists. split; [reflexivity |]. split; [exact Hsize |].
  intros x y Hx Hy. cbn [pixel].
  rewrite Hpix, mask_pixel by assumption. reflexivity.
Qed.

(** The nine calls are one fold over [glyphs]. *)
Lemma draw_glyphs_fold (im : Image rgba) :
  draw_glyphs im = fold_left (fun im g => paint im (fst g) (snd g)) glyphs im.
Proof. reflexivity. Qed.

Lemma fold_paint_size (gs : list ((Z -> Z -> bool) * rgba)) (im : Image rgba) :
  size_of (fold_left (fun im g => paint im (fst g) (snd g)) gs im) = size_of im.
Proof.
  revert im. induction gs as [| g gs IH]; intros im; [reflexivity |].
  cbn [fold_left]. now rewrite IH.
Qed.

Lemma topmost_snoc gs g x y :
  topmost (gs ++ [g]) x y = if fst g x y then Some (snd g) else topmost gs x y.
Proof. unfold topmost. now rewrite fold_left_app. Qed.

(** Drawing shapes one after the other leaves in each pixel the fill of the
    last shape that covers it. *)
Lemma fold_paint_pixel (gs : list ((Z -> Z -> bool) * rgba)) (im : Image rgba) x y :
  in_bounds im x y = true ->
  pixel (fold_left (fun im g => paint im (fst g) (snd g)) gs im) x y
  = match topmost gs x y with Some c => c | None => pixel im x y end.
Proof.
  intros Hb. induction gs as [| g gs IH] using rev_ind; [reflexivity |].
  rewrite fold_left_app, topmost_snoc. cbn [fold_left pixel paint].
  unfold in_bounds, width, height in *. rewrite fold_paint_size, Hb.
  cbn [andb]. destruct (fst g x y); [reflexivity | exact IH].
Qed.

Lemma topmost_none gs x y :
  topmost gs x y = None <-> Forall (fun g => fst g x y = false) gs.
Proof.
  induction gs as [| g gs IH] using rev_ind.
  - split; [constructor | reflexivity].
  - rewrite topmost_snoc, Forall_app, Forall_singleton.
    destruct (fst g x y); [| rewrite IH; tauto].
    split; [discriminate | intros [_ Hf]; discriminate].
Qed.

(** [topmost] picks the fill of a shape that covers the pixel and that no
    later shape of the list covers. *)
Lemma topmost_some gs x y c :
  topmost gs x y = Some c <->
  exists before g after,
    gs = before ++ g :: after /\ fst g x y = true /\ snd g = c /\
    Forall (fun g' => fst g' x y = false) after.
Proof.
  induction gs as [| g gs IH] using rev_ind.
  - split; [discriminate |]. intros (b & g & a & Heq & _).
    now destruct b.
  - rewrite topmost_snoc. destruct (fst g x y) eqn:Hg.
    + split.
      * intros [= <-]. exists gs, g, []. repeat split; auto.
      * intros (b & g' & a & Heq & Hc & <- & Hnone).
        destruct a as [| a0 a _] using rev_ind.
        -- apply app_inj_tail in Heq as [_ ->]. reflexivity.
        -- rewrite app_comm_cons, app_assoc in Heq.
           apply app_inj_tail in Heq as [_ ->].
           rewrite Forall_app, Forall_singleton in Hnone.
           destruct Hnone as [_ Hnone]. congruence.
    + rewrite IH. split.
      * intros (b & g' & a & -> & Hc & Hs & Hnone).
        exists b, g', (a ++ [g]). rewrite <- app_assoc. repeat split; auto.
        rewrite Forall_app, Forall_singleton. auto.
      * intros (b & g' & a & Heq & Hc & Hs & Hnone).
        destruct a as [| a0 a _] using rev_ind.
        -- apply app_inj_tail in Heq as [_ ->]. congruence.
        -- rewrite app_comm_cons, app_assoc in Heq.
           apply app_inj_tail in Heq as [-> ->].
           rewrite Forall_app in Hnone. destruct Hnone as [Hnone _].
           exists b, g', a. auto.
Qed.

Lemma covered_by_glyph_false x y :
  covered_by_glyph x y = false <-> topmost glyphs x y = None.
Proof.
  rewrite topmost_none. unfold covered_by_glyph.
  generalize glyphs. intros gs. induction gs as [| g gs IH].
  - split; [constructor | reflexivity].
  - cbn [existsb]. rewrite orb_false_iff, Forall_cons, IH. tauto.
Qed.

(** The image saved by line 91: inside the canvas, a pixel holds the fill of
    the topmost glyph over it, or else the gradient with the alpha of the
    mask. *)
Lemma img_master_spec :
  returns img_master (fun m =>
    size_of m = (size, size) /\
    forall x y, 0 <= x < size -> 0 <= y < size ->
      pixel m x y =
      match topmost glyphs x y with
      | Some c => c
      | None =>
          RGBA (exact_channel 60 37 y) (exact_channel 130 78 y)
               (exact_channel 246 192 y) (if clip_covers x y then 255 else 0)
      end).
Proof.
  destruct img_clipped_spec as (c & Hrun & Hsize & Hpix).
  unfold img_master. rewrite Hrun. cbn [mbind result_bind].
  eexists. split; [reflexivity |]. rewrite draw_glyphs_fold. split.
  - now rewrite fold_paint_size.
  - intros x y Hx Hy. rewrite fold_paint_pixel.
    + now rewrite Hpix.
    + apply in_bounds_iff. unfold width, height. rewrite Hsize. cbn [fst snd]. lia.
Qed.

End Composition.

Section Glyphs.
Context `{Pillow}.

Lemma in_bbox_bounds (pts : list (Z * Z)) (x y lx hx ly hy : Z) :
  Forall (fun p => lx <= fst p <= hx /\ ly <= snd p <= hy) pts ->
  in_bbox pts x y = true -> lx <= x <= hx /\ ly <= y <= hy.
Proof.
  intros Hall Hb. rewrite Forall_forall in Hall. unfold in_bbox in Hb.
  rewrite !andb_true_iff, !existsb_exists in Hb.
  destruct Hb as [[[(p1 & Hp1 & H1) (p2 & Hp2 & H2)] (p3 & Hp3 & H3)] (p4 & Hp4 & H4)].
  apply list_elem_of_In, Hall in Hp1, Hp2, Hp3, Hp4. bools. lia.
Qed.

Lemma polygon_bounds pts x y lx hx ly hy :
  Forall (fun p => lx <= fst p <= hx /\ ly <= snd p <= hy) pts ->
  polygon_covers pts x y = true -> lx <= x <= hx /\ ly <= y <= hy.
Proof. intros Hall Hc. eapply in_bbox_bounds; eauto using polygon_in_bbox. Qed.

Lemma rounded_rectangle_bounds x0 y0 x1 y1 radius x y :
  x0 <= x1 -> y0 <= y1 ->
  rounded_rectangle_covers (x0, y0) (x1, y1) radius x y = true ->
  x0 <= x <= x1 /\ y0 <= y <= y1.
Proof.
  intros Hx Hy Hc. apply rounded_rectangle_in_bbox in Hc.
  eapply in_bbox_bounds; [| exact Hc].
  repeat constructor; cbn; lia.
Qed.

Lemma glyphs_in_boxes (x y : Z) :
  Forall2 (fun (g : (Z -> Z -> bool) * rgba) '(lx, hx, ly, hy) =>
             fst g x y = true -> lx <= x <= hx /\ ly <= y <= hy)
          glyphs glyph_boxes.
Proof.
  unfold glyphs, glyph_boxes, doc_points, fold_points, m_points, arrow_points,
    doc_left, doc_top, doc_right, doc_bottom, corner_fold.
  repeat (apply Forall2_cons; split); try apply Forall2_nil; cbn [fst];
    first [ exact I
          | apply polygon_bounds; repeat constructor; cbn [fst snd]; lia
          | apply rounded_rectangle_bounds; lia ].
Qed.

(** Every glyph lies within the document rectangle. *)
Lemma glyph_in_document (g : (Z -> Z -> bool) * rgba) (x y : Z) :
  g ∈ glyphs -> fst g x y = true -> 280 <= x <= 744 /\ 160 <= y <= 864.
Proof.
  intros Hin Hc.
  pose proof (glyphs_in_boxes x y) as Hboxes.
  apply list_elem_of_lookup in Hin as [i Hi].
  destruct (Forall2_lookup_l _ _ _ _ _ Hboxes Hi) as ([[[lx hx] ly] hy] & Hbox & Hloc).
  specialize (Hloc Hc).
  unfold glyph_boxes in Hbox.
  do 9 (destruct i as [| i]; [injection Hbox as <- <- <- <-; lia |]).
  discriminate.
Qed.

Lemma covered_by_glyph_true (x y : Z) :
  covered_by_glyph x y = true <-> exists g, g ∈ glyphs /\ fst g x y = true.
Proof.
  unfold covered_by_glyph. rewrite existsb_exists.
  split; intros (g & Hin & Hc); exists g; split; auto; now apply list_elem_of_In.
Qed.

(** A pixel under a glyph is inside the canvas, in the inner rectangle of the
    mask, and so inside the clip region. *)
Lemma covered_pixel_inner (x y : Z) :
  covered_by_glyph x y = true ->
  (0 <= x < size /\ 0 <= y < size) /\
  inner_rectangle x y = true /\ clip_covers x y = true.
Proof.
  intros Hc. apply covered_by_glyph_true in Hc as (g & Hin & Hg).
  destruct (glyph_in_document g x y Hin Hg) as [Hx Hy].
  assert (Hinner : inner_rectangle x y = true).
  { unfold inner_rectangle, in_cross, size. cbn [fst snd].
    apply orb_true_iff. left.
    rewrite !andb_true_iff, !Z.ltb_lt, !Z.leb_le. lia. }
  split; [unfold size; lia |]. split; [exact Hinner |].
  apply rounded_rectangle_cross; [lia | exact Hinner].
Qed.

End Glyphs.

(* ===================================================================== *)
(** * Claims about the mask and the glyphs                                *)
(* ===================================================================== *)

Section GlyphTable.
Context `{Pillow}.

(** The alpha of the glyph at each place of the drawing order. *)
Lemma glyph_alpha_table (before after : list ((Z -> Z -> bool) * rgba)) g :
  glyphs = before ++ g :: after ->
  literal_alphas !! length before = Some (alpha (snd g)).
Proof.
  intros Heq.
  assert (Hg : glyphs !! length before = Some g)
    by (rewrite Heq; apply list_lookup_middle; reflexivity).
  clear Heq. unfold glyphs in Hg.
  destruct (length before) as [| n]; [injection Hg as <-; reflexivity |].
  do 8 (destruct n as [| n]; [injection Hg as <-; reflexivity |]).
  discriminate.
Qed.

Lemma literal_alpha_values (n : nat) (a : Z) :
  literal_alphas !! n = Some a -> a ∈ [230; 200; 160; 80] /\ a <> 255.
Proof.
  unfold literal_alphas. intros Ha.
  do 9 (destruct n as [| n];
        [injection Ha as <-; split; [set_solver | lia] |]).
  discriminate.
Qed.

Lemma covered_topmost (x y : Z) :
  covered_by_glyph x y = true -> exists c, topmost glyphs x y = Some c.
Proof.
  intros Hc. destruct (topmost glyphs x y) as [c |] eqn:Ht; [eauto |].
  apply covered_by_glyph_false in Ht. congruence.
Qed.

End GlyphTable.

(** C10, as the code has it.  The glyphs are drawn after the mask was
    applied, and a fill replaces the pixel it lands on.  So in the master
    image every pixel under a glyph holds the fill of the glyph drawn last
    over it, alpha included: 230 for the document body, 200 for the fold and
    the heading, 160 for the four body lines, 80 for the M and the arrow
    ([literal_alphas], in drawing order); never 255.  A glyph that lies under
    a later one does not show: the alpha of the earlier glyph is gone
    there. *)
Theorem glyph_pixels_carry_literal_alpha `{Pillow} (x y : Z) :
  covered_by_glyph x y = true ->
  returns img_master (fun m =>
    (exists before g after,
        glyphs = before ++ g :: after /\ fst g x y = true /\
        Forall (fun g' => fst g' x y = false) after) /\
    (forall before g after,
        glyphs = before ++ g :: after -> fst g x y = true ->
        Forall (fun g' => fst g' x y = false) after ->
        getpixel m x y = Some (snd g) /\
        literal_alphas !! length before = Some (alpha (snd g))) /\
    alpha (pixel m x y) ∈ [230; 200; 160; 80] /\
    alpha (pixel m x y) <> 255).
Proof.
  intros Hcov.
  destruct (covered_pixel_inner x y Hcov) as [[Hx Hy] _].
  destruct (covered_topmost x y Hcov) as [c Hc].
  destruct img_master_spec as (m & Hrun & Hsize & Hpix).
  exists m. split; [exact Hrun |].
  specialize (Hpix x y Hx Hy). rewrite Hc in Hpix.
  assert (Hb : in_bounds m x y = true).
  { apply in_bounds_iff. unfold width, height. rewrite Hsize. cbn [fst snd]. lia. }
  pose proof Hc as Hdec. apply topmost_some in Hdec.
  destruct Hdec as (b0 & g0 & a0 & Heq0 & Hg0 & Hs0 & Hn0).
  split; [exists b0, g0, a0; auto |]. split.
  - intros before g after Heq Hg Hnone.
    assert (Ht : topmost glyphs x y = Some (snd g))
      by (apply topmost_some; exists before, g, after; auto).
    split; [| eapply glyph_alpha_table; eauto].
    unfold getpixel. rewrite Hb, Hpix. congruence.
  - rewrite Hpix, <- Hs0.
    eapply literal_alpha_values, glyph_alpha_table; eauto.
Qed.

Lemma glyph_pixels_carry_literal_alpha_witness :
  returns (@img_master reference_pillow) (fun m =>
    getpixel m 500 360 = Some (RGBA 60 130 246 200) /\
    alpha (pixel m 500 360) <> 255).
Proof.
  assert (Hcov : @covered_by_glyph reference_pillow 500 360 = true)
    by (vm_compute; reflexivity).
  destruct (@glyph_pixels_carry_literal_alpha reference_pillow 500 360 Hcov)
    as (m & Hrun & _ & Hall & _ & Hne).
  exists m. split; [exact Hrun |]. split; [| exact Hne].
  refine (proj1 (Hall (take 2 glyphs) _ (drop 3 glyphs) eq_refl _ _)).
  - vm_compute. reflexivity.
  - repeat constructor.
Defined.

(** The claim C10 as the spec words it, every pixel covered by a glyph
    carrying that glyph's alpha, fails at pixel (500, 360): the document
    body, the first glyph, filled with alpha 230, covers it, and the master
    image holds alpha 200 there, the alpha of the heading drawn over the
    page. *)
Lemma page_pixel_carries_heading_alpha :
  @glyphs reference_pillow !! 0%nat
  = Some (@polygon_covers reference_pillow doc_points, RGBA 255 255 255 230) /\
  @polygon_covers reference_pillow doc_points 500 360 = true /\
  returns (@img_master reference_pillow) (fun m =>
    getpixel m 500 360 = Some (RGBA 60 130 246 200) /\
    alpha (pixel m 500 360) <> 230).
Proof.
  split; [reflexivity |]. split; [vm_compute; reflexivity |].
  destruct (@img_master_spec reference_pillow) as (m & Hrun & Hsize & Hpix).
  exists m. split; [exact Hrun |].
  assert (Ht : topmost (@glyphs reference_pillow) 500 360
               = Some (RGBA 60 130 246 200)) by (vm_compute; reflexivity).
  assert (Hp : pixel m 500 360 = RGBA 60 130 246 200).
  { rewrite Hpix by (unfold size; lia). now rewrite Ht. }
  split; [| rewrite Hp; cbn; lia].
  unfold getpixel.
  replace (in_bounds m 500 360) with true; [now rewrite Hp |].
  symmetry. apply in_bounds_iff. unfold width, height. rewrite Hsize.
  cbn [fst snd]. unfold size. lia.
Qed.

(** C2, as the code has it.  In the master image every pixel outside the
    clip region (the rounded rectangle of radius 220 over the full canvas)
    has alpha 0.  A pixel of the inner rectangle, away from the rounded
    corners, has alpha 255 after the mask is applied, and keeps it in the
    master image wherever no glyph is drawn over it.  A pixel under one or
    more glyphs carries instead the alpha of the glyph drawn last over it,
    one of 230, 200, 160 and 80. *)
Theorem clip_alpha `{Pillow} (x y : Z) :
  0 <= x < 1024 -> 0 <= y < 1024 ->
  returns img_clipped (fun c =>
    (clip_covers x y = false -> alpha (pixel c x y) = 0) /\
    (inner_rectangle x y = true -> alpha (pixel c x y) = 255)) /\
  returns img_master (fun m =>
    (clip_covers x y = false -> alpha (pixel m x y) = 0) /\
    (inner_rectangle x y = true -> covered_by_glyph x y = false ->
     alpha (pixel m x y) = 255) /\
    (covered_by_glyph x y = true ->
     exists before g after,
       glyphs = before ++ g :: after /\ fst g x y = true /\
       Forall (fun g' => fst g' x y = false) after /\
       alpha (pixel m x y) = alpha (snd g) /\
       literal_alphas !! length before = Some (alpha (snd g)) /\
       alpha (pixel m x y) ∈ [230; 200; 160; 80])).
Proof.
  intros Hx Hy.
  assert (Hinner : inner_rectangle x y = true -> clip_covers x y = true).
  { intros Hi. apply rounded_rectangle_cross; [lia | exact Hi]. }
  split.
  - destruct img_clipped_spec as (c & Hrun & _ & Hpix).
    exists c. split; [exact Hrun |].
    rewrite Hpix by (unfold size; lia). cbn [alpha].
    split; [intros -> | intros Hi; rewrite (Hinner Hi)]; reflexivity.
  - destruct img_master_spec as (m & Hrun & _ & Hpix).
    exists m. split; [exact Hrun |].
    rewrite Hpix by (unfold size; lia). split; [| split].
    + intros Hout.
      destruct (covered_by_glyph x y) eqn:Hcov.
      * apply covered_pixel_inner in Hcov as (_ & _ & Hclip). congruence.
      * apply covered_by_glyph_false in Hcov. rewrite Hcov. cbn [alpha].
        now rewrite Hout.
    + intros Hi Hcov. apply covered_by_glyph_false in Hcov. rewrite Hcov.
      cbn [alpha]. now rewrite (Hinner Hi).
    + intros Hcov. destruct (covered_topmost x y Hcov) as [c Hc].
      rewrite Hc. apply topmost_some in Hc.
      destruct Hc as (b0 & g0 & a0 & Heq0 & Hg0 & Hs0 & Hn0).
      exists b0, g0, a0. rewrite <- Hs0.
      pose proof (glyph_alpha_table b0 a0 g0 Heq0) as Htable.
      split; [exact Heq0 |]. split; [exact Hg0 |]. split; [exact Hn0 |].
      split; [reflexivity |]. split; [exact Htable |].
      exact (proj1 (literal_alpha_values _ _ Htable)).
Qed.

Lemma clip_alpha_witness :
  returns (@img_master reference_pillow) (fun m =>
    alpha (pixel m 0 0) = 0 /\ alpha (pixel m 100 500) = 255 /\
    alpha (pixel m 500 360) ∈ [230; 200; 160; 80]).
Proof.
  destruct (@clip_alpha reference_pillow 0 0) as [_ (m & Hrun & Hout & _)];
    [lia | lia |].
  destruct (@clip_alpha reference_pillow 100 500)
    as [_ (m' & Hrun' & _ & Hin & _)]; [lia | lia |].
  destruct (@clip_alpha reference_pillow 500 360)
    as [_ (m'' & Hrun'' & _ & _ & Hunder)]; [lia | lia |].
  rewrite Hrun in Hrun'. injection Hrun' as <-.
  rewrite Hrun in Hrun''. injection Hrun'' as <-.
  exists m. split; [exact Hrun |]. split; [| split].
  - apply Hout. vm_compute. reflexivity.
  - apply Hin; vm_compute; reflexivity.
  - destruct Hunder as (b0 & g0 & a0 & _ & _ & _ & _ & _ & Hval);
      [vm_compute; reflexivity | exact Hval].
Defined.

(** The claim C2 as the spec words it fails at pixel (500, 360): it lies in
    the inner rectangle, and whatever the rasterizer, the master image holds
    the heading's fill there, with alpha 200. *)
Lemma inner_pixel_not_opaque :
  inner_rectangle 500 360 = true /\
  forall P : Pillow,
    returns (@img_master P) (fun m =>
      getpixel m 500 360 = Some (RGBA 60 130 246 200) /\
      alpha (pixel m 500 360) <> 255).
Proof.
  split; [reflexivity |]. intros P.
  assert (Hhead : rounded_rectangle_covers (340, 340) (700, 380) 8 500 360 = true)
    by (apply rounded_rectangle_cross; [lia | reflexivity]).
  assert (Hafter : Forall (fun g' : (Z -> Z -> bool) * rgba => fst g' 500 360 = false)
                     (drop 3 glyphs)).
  { pose proof (glyphs_in_boxes 500 360) as Hboxes.
    apply (Forall2_drop _ _ _ 3) in Hboxes.
    unfold glyphs, glyph_boxes in *. cbn [drop] in *.
    repeat match goal with
    | Hb : Forall2 _ (_ :: _) (_ :: _) |- _ =>
        apply Forall2_cons in Hb; destruct Hb as [? Hb]
    end.
    cbn [fst] in *.
    repeat constructor; cbn [fst];
      match goal with
      | |- ?b = false => destruct b eqn:E; [| reflexivity]
      end;
      match goal with
      | Hloc : true = true -> _ |- _ => specialize (Hloc eq_refl); lia
      end. }
  assert (Ht : topmost glyphs 500 360 = Some (RGBA 60 130 246 200)).
  { apply topmost_some.
    exists (take 2 glyphs), (rounded_rectangle_covers (340, 340) (700, 380) 8,
                             RGBA 60 130 246 200), (drop 3 glyphs).
    repeat split; [exact Hhead | exact Hafter]. }
  destruct img_master_spec as (m & Hrun & Hsize & Hpix).
  exists m. split; [exact Hrun |].
  assert (Hp : pixel m 500 360 = RGBA 60 130 246 200).
  { rewrite Hpix by (unfold size; lia). now rewrite Ht. }
  split; [| rewrite Hp; cbn; lia].
  unfold getpixel.
  replace (in_bounds m 500 360) with true; [now rewrite Hp |].
  symmetry. apply in_bounds_iff. unfold width, height. rewrite Hsize.
  cbn [fst snd]. unfold size. lia.
Qed.

Lemma rounded_rect_any_radius `{Pillow} (im : Image rgba) (xy : Z * Z * Z * Z)
    (r r' : Z) (ft fb : Z * Z * Z) :
  rounded_rect im xy r ft fb = rounded_rect im xy r' ft fb.
Proof. destruct xy as [[[x0 y0] x1] y1]. reflexivity. Qed.

(** C9.  The radius handed to [rounded_rect] (180 in the script) has no
    effect: whatever its value the routine gives the same result, a gradient
    over the full square, opaque in every pixel, corners included.  The
    rounding of the icon comes from the mask alone: where no glyph is drawn,
    the alpha of the master image is 255 inside the rounded rectangle of
    radius 220 and 0 outside it. *)
Theorem gradient_radius_unused `{Pillow} (radius : Z) :
  (forall im xy fill_top fill_bottom,
      rounded_rect im xy radius fill_top fill_bottom
      = rounded_rect im xy 180 fill_top fill_bottom) /\
  rounded_rect img_new (0, 0, size, size) radius fill_top fill_bottom = img_gradient /\
  returns img_gradient (fun g =>
    forall x y, 0 <= x < 1024 -> 0 <= y < 1024 -> alpha (pixel g x y) = 255) /\
  returns img_master (fun m =>
    forall x y, 0 <= x < 1024 -> 0 <= y < 1024 ->
      covered_by_glyph x y = false ->
      alpha (pixel m x y)
      = if rounded_rectangle_covers (0, 0) (1023, 1023) 220 x y then 255 else 0).
Proof.
  split; [| split; [| split]].
  - intros im xy ft fb. apply rounded_rect_any_radius.
  - unfold img_gradient. apply rounded_rect_any_radius.
  - destruct img_gradient_spec as (g & Hrun & _ & Hpix).
    exists g. split; [exact Hrun |]. intros x y Hx Hy.
    rewrite Hpix by (unfold size; lia). reflexivity.
  - destruct img_master_spec as (m & Hrun & _ & Hpix).
    exists m. split; [exact Hrun |]. intros x y Hx Hy Hcov.
    rewrite Hpix by (unfold size; lia).
    apply covered_by_glyph_false in Hcov. rewrite Hcov. reflexivity.
Qed.

(* ===================================================================== *)
(** * Properties: the file tree and [os.makedirs]                         *)
(* ===================================================================== *)

Import OS.

Lemma node_at_put (t : filesystem) (p q : path) (n : node) :
  p <> [] ->
  node_at (put t p n) q = if decide (q = p) then Some n else node_at t q.
Proof.
  intros Hp. unfold node_at, put. cbn [nodes root_writable].
  destruct q as [| c q].
  - rewrite decide_False by congruence. reflexivity.
  - destruct (decide (c :: q = p)) as [Heq | Hne].
    + rewrite decide_True by exact Heq. subst p. apply lookup_insert_eq.
    + rewrite decide_False by exact Hne. apply lookup_insert_ne. congruence.
Qed.

Lemma node_at_nil (t : filesystem) : node_at t [] = Some (Dir (root_writable t)).
Proof. reflexivity. Qed.

Lemma created_refl (w : world) : created w w [].
Proof.
  unfold created. cbn [map]. rewrite app_nil_r.
  repeat split; auto.
Qed.

Lemma created_trans (w w1 w2 : world) (ds1 ds2 : list path) :
  created w w1 ds1 -> created w1 w2 ds2 -> created w w2 (ds1 ++ ds2).
Proof.
  intros (Hc1 & Hr1 & Hn1 & Hf1) (Hc2 & Hr2 & Hn2 & Hf2).
  unfold created. split; [| split; [| split]].
  - rewrite Hc2, Hc1, map_app, app_assoc. reflexivity.
  - congruence.
  - intros p. rewrite Hn2, Hn1.
    destruct (decide (p ∈ ds2)) as [H2 | H2], (decide (p ∈ ds1)) as [H1 | H1];
      repeat first
        [ rewrite (bool_decide_eq_true_2 (p ∈ ds1 ++ ds2)) by set_solver
        | rewrite (bool_decide_eq_false_2 (p ∈ ds1 ++ ds2)) by set_solver
        | rewrite (bool_decide_eq_true_2 (p ∈ ds1)) by assumption
        | rewrite (bool_decide_eq_false_2 (p ∈ ds1)) by assumption
        | rewrite (bool_decide_eq_true_2 (p ∈ ds2)) by assumption
        | rewrite (bool_decide_eq_false_2 (p ∈ ds2)) by assumption ];
      reflexivity.
  - apply Forall_app. split; [exact Hf1 |].
    rewrite Forall_forall in Hf2 |- *. intros d Hd.
    destruct (Hf2 d Hd) as [Hnone Hne]. split; [| exact Hne].
    rewrite Hn1 in Hnone.
    destruct (bool_decide (d ∈ ds1)); [discriminate | exact Hnone].
Qed.

(** [mkdir] either makes exactly the directory, or fails and changes
    nothing. *)
Lemma mkdir_effect (p : path) (w : world) :
  (exists w', mkdir p w = (Ok tt, w') /\ created w w' [p] /\
              node_at (fs w) (parent p) = Some (Dir true)) \/
  (exists e, mkdir p w = (Raise e, w) /\
             (node_at (fs w) p = None ->
              node_at (fs w) (parent p) <> Some (Dir true))).
Proof.
  unfold mkdir, mkdir_fs.
  destruct (node_at (fs w) p) as [n |] eqn:Hp.
  - right. exists FileExistsError. split; [reflexivity | discriminate].
  - assert (Hne : p <> []) by (intros ->; discriminate).
    destruct (node_at (fs w) (parent p)) as [[[|] | ? ?] |] eqn:Hpar;
      [left | right; eexists; split; [reflexivity | intros _; discriminate] ..].
    eexists. split; [reflexivity |]. split; [| reflexivity].
    unfold created. cbn [fs calls map]. repeat split; auto.
    intros q. rewrite node_at_put by exact Hne.
    destruct (decide (q = p)) as [-> | Hq].
    + rewrite bool_decide_eq_true_2 by set_solver. reflexivity.
    + rewrite bool_decide_eq_false_2 by set_solver. reflexivity.
Qed.

(** The guarded [mkdir]: it makes the directory, or changes nothing; when it
    returns, the directory is there. *)
Lemma mkdir_exist_ok_effect (name : path) (exist_ok : bool) (w : world) r w' :
  mkdir_exist_ok name exist_ok w = (r, w') ->
  (created w w' [name] \/ w' = w) /\
  (r = Ok tt -> isdir (fs w') name = true).
Proof.
  unfold mkdir_exist_ok, try_except.
  destruct (mkdir_effect name w) as [(w1 & Hrun & Hcr & _) | (e & Hrun & _)];
    rewrite Hrun.
  - intros [= <- <-]. split; [left; exact Hcr |]. intros _.
    destruct Hcr as (_ & _ & Hn & _). unfold isdir. rewrite Hn.
    rewrite bool_decide_eq_true_2 by (apply list_elem_of_here). reflexivity.
  - destruct (negb exist_ok || negb (isdir (fs w) name)) eqn:Hc;
      intros [= <- <-]; (split; [right; reflexivity |]).
    + discriminate.
    + intros _. apply orb_false_elim in Hc as [_ Hc].
      now apply negb_false_iff in Hc.
Qed.

(** One step of the recursion of [os.makedirs]. *)
Lemma makedirs_rev_cons (c : string) (rev_head : path) (exist_ok : bool) (w : world) :
  makedirs_rev (c :: rev_head) exist_ok w =
  let name := rev rev_head ++ [c] in
  if exists_ (fs w) (rev rev_head) then mkdir_exist_ok name exist_ok w
  else
    match makedirs_rev rev_head exist_ok w with
    | (Ok _, w1) => mkdir_exist_ok name exist_ok w1
    | (Raise FileExistsError, w1) => mkdir_exist_ok name exist_ok w1
    | (Raise e, w1) => (Raise e, w1)
    end.
Proof.
  cbn [makedirs_rev rev]. unfold mbind, IO_bind, try_except, mret, IO_ret, lift.
  destruct (exists_ (fs w) (rev rev_head)); [reflexivity |].
  destruct (makedirs_rev rev_head exist_ok w) as [[[] | e] w1]; [reflexivity |].
  destruct e; reflexivity.
Qed.

Lemma makedirs_rev_nil (exist_ok : bool) (w : world) :
  makedirs_rev [] exist_ok w
  = if exist_ok then (Ok tt, w) else (Raise FileExistsError, w).
Proof.
  cbn [makedirs_rev rev]. unfold mbind, IO_bind, mkdir_exist_ok, try_except, mret, IO_ret.
  unfold mkdir, mkdir_fs. cbn. destruct exist_ok; reflexivity.
Qed.

(** What [os.makedirs] does, whether it returns or raises: it makes
    directories along the path, each at a free name, and nothing else; when
    it returns, the path is a directory. *)
Lemma makedirs_rev_effect (rev_name : path) (exist_ok : bool) :
  forall w r w',
    makedirs_rev rev_name exist_ok w = (r, w') ->
    exists ds,
      created w w' ds /\
      Forall (fun d => d `prefix_of` rev rev_name) ds /\
      (r = Ok tt -> isdir (fs w') (rev rev_name) = true).
Proof.
  induction rev_name as [| c rev_head IH]; intros w r w' Hrun.
  - rewrite makedirs_rev_nil in Hrun.
    exists []. split; [| split; [constructor | reflexivity]].
    destruct exist_ok; injection Hrun as <- <-; apply created_refl.
  - rewrite makedirs_rev_cons in Hrun. cbn zeta in Hrun. cbn [rev].
    assert (Hlast : forall w1 ds1,
               created w w1 ds1 ->
               Forall (fun d => d `prefix_of` rev rev_head) ds1 ->
               mkdir_exist_ok (rev rev_head ++ [c]) exist_ok w1 = (r, w') ->
               exists ds,
                 created w w' ds /\
                 Forall (fun d => d `prefix_of` rev rev_head ++ [c]) ds /\
                 (r = Ok tt -> isdir (fs w') (rev rev_head ++ [c]) = true)).
    { intros w1 ds1 Hcr1 Hpre1 Hmk.
      apply mkdir_exist_ok_effect in Hmk as [[Hcr2 | ->] Hdir].
      - exists (ds1 ++ [rev rev_head ++ [c]]).
        split; [eapply created_trans; eauto |]. split; [| exact Hdir].
        apply Forall_app. split.
        + eapply Forall_impl; [exact Hpre1 |]. intros d Hd.
          now apply prefix_app_r.
        + now apply Forall_singleton.
      - exists ds1. split; [exact Hcr1 |]. split; [| exact Hdir].
        eapply Forall_impl; [exact Hpre1 |]. intros d Hd.
        now apply prefix_app_r. }
    destruct (exists_ (fs w) (rev rev_head)).
    + apply (Hlast w []); [apply created_refl | constructor | exact Hrun].
    + destruct (makedirs_rev rev_head exist_ok w) as [r1 w1] eqn:Hrec.
      destruct (IH w r1 w1 Hrec) as (ds1 & Hcr1 & Hpre1 & _).
      destruct r1 as [[] | e]; [eapply Hlast; eauto |].
      destruct e; try (eapply Hlast; eauto; fail);
        injection Hrun as <- <-; exists ds1;
        (split; [exact Hcr1 |]); (split; [| discriminate]);
        (eapply Forall_impl; [exact Hpre1 |]); intros d Hd;
        now apply prefix_app_r.
Qed.

Lemma isdir_true (t : filesystem) (p : path) :
  isdir t p = true <-> exists b, node_at t p = Some (Dir b).
Proof.
  unfold isdir. destruct (node_at t p) as [[b | b d] |]; split;
    try discriminate; eauto; intros [b' Hb]; discriminate.
Qed.

Lemma exists_of_isdir (t : filesystem) (p : path) :
  isdir t p = true -> exists_ t p = true.
Proof. intros [b Hb]%isdir_true. unfold exists_. now rewrite Hb. Qed.

Lemma parent_snoc (p : path) (c : string) : parent (p ++ [c]) = p.
Proof. apply removelast_last. Qed.

Lemma parent_take (P : path) (n : nat) :
  (n < length P)%nat -> parent (take (S n) P) = take n P.
Proof.
  intros Hn. destruct (lookup_lt_is_Some_2 P n Hn) as [c Hc].
  rewrite (take_S_r _ _ _ Hc). apply parent_snoc.
Qed.

Lemma mkdir_exist_ok_existing (name : path) (w : world) :
  isdir (fs w) name = true -> mkdir_exist_ok name true w = (Ok tt, w).
Proof.
  intros Hdir. unfold mkdir_exist_ok, try_except, mkdir, mkdir_fs.
  destruct (isdir_true (fs w) name) as [[b Hb] _]; [exact Hdir |].
  rewrite Hb, Hdir. reflexivity.
Qed.

Lemma mkdir_exist_ok_fresh (name : path) (exist_ok : bool) (w : world) :
  node_at (fs w) name = None ->
  node_at (fs w) (parent name) = Some (Dir true) ->
  exists w', mkdir_exist_ok name exist_ok w = (Ok tt, w').
Proof.
  intros Hnone Hpar. unfold mkdir_exist_ok, try_except, mkdir, mkdir_fs.
  rewrite Hnone, Hpar. eauto.
Qed.

(** [os.makedirs] returns on a ready path. *)
Lemma makedirs_rev_succeeds (rev_name : path) (k : nat) :
  forall w,
    path_ready (fs w) (rev rev_name) k ->
    exists w', makedirs_rev rev_name true w = (Ok tt, w').
Proof.
  induction rev_name as [| c rev_head IH]; intros w (Hk & Hdirs & Hfree & Hwr).
  - rewrite makedirs_rev_nil. eauto.
  - cbn [rev] in *. rewrite length_app in *. cbn [length] in *.
    set (P := rev rev_head ++ [c]) in *.
    assert (Hlen : length (rev rev_head) = length rev_head) by apply length_rev.
    assert (Htake : forall n, (n <= length rev_head)%nat ->
                      take n P = take n (rev rev_head)).
    { intros n Hn. unfold P. apply take_app_le. lia. }
    assert (Hhead : take (length rev_head) P = rev rev_head).
    { rewrite Htake by lia. apply take_ge. lia. }
    assert (HP : take (S (length rev_head)) P = P).
    { apply take_ge. unfold P. rewrite length_app. cbn. lia. }
    rewrite makedirs_rev_cons. cbn zeta. fold P.
    destruct (decide (k = S (length rev_head))) as [-> | Hlt].
    + (* the directory is there already *)
      assert (H1 : isdir (fs w) (rev rev_head) = true)
        by (rewrite <- Hhead; apply Hdirs; lia).
      assert (H2 : isdir (fs w) P = true)
        by (rewrite <- HP; apply Hdirs; lia).
      rewrite (exists_of_isdir _ _ H1), (mkdir_exist_ok_existing _ _ H2). eauto.
    + assert (Hnew : node_at (fs w) P = None)
        by (rewrite <- HP; apply Hfree; lia).
      destruct (decide (k = length rev_head)) as [-> | Hlt'].
      * (* only the last component is missing *)
        assert (H1 : node_at (fs w) (rev rev_head) = Some (Dir true))
          by (rewrite <- Hhead; apply Hwr; lia).
        unfold exists_. rewrite H1.
        apply mkdir_exist_ok_fresh; [exact Hnew |].
        unfold P. now rewrite parent_snoc.
      * (* the head is missing too: the recursive call makes it *)
        assert (H1 : node_at (fs w) (rev rev_head) = None)
          by (rewrite <- Hhead; apply Hfree; lia).
        unfold exists_. rewrite H1.
        destruct (IH w) as [w1 Hrec].
        { repeat split.
          - lia.
          - intros n Hn. rewrite <- Htake by lia. apply Hdirs. lia.
          - intros n Hn. rewrite <- Htake by lia. apply Hfree. lia.
          - intros _. rewrite <- Htake by lia. apply Hwr. lia. }
        rewrite Hrec.
        destruct (makedirs_rev_effect _ _ _ _ _ Hrec)
          as (ds & (_ & _ & Hn & _) & Hpre & Hdir).
        specialize (Hdir eq_refl).
        apply mkdir_exist_ok_fresh.
        -- rewrite Hn, bool_decide_eq_false_2; [exact Hnew |].
           intros Hin. rewrite Forall_forall in Hpre.
           apply Hpre, prefix_length in Hin. unfold P in Hin.
           rewrite length_app in Hin. cbn in Hin. lia.
        -- unfold P. rewrite parent_snoc.
           apply isdir_true in Hdir as [b Hb]. rewrite Hn in Hb |- *.
           case_bool_decide; [reflexivity | congruence].
Qed.

(** In a file tree, the directories above an existing node exist, and
    nothing exists below a missing one. *)
Lemma tree_shaped_above (t : filesystem) (P : path) (n : nat) :
  tree_shaped t -> (n <= length P)%nat -> is_Some (node_at t (take n P)) ->
  forall m, (m < n)%nat -> isdir t (take m P) = true.
Proof.
  intros Htree. induction n as [| n IH]; intros Hn Hsome m Hm; [lia |].
  assert (Hpar : isdir t (take n P) = true).
  { destruct Hsome as [nd Hnd]. rewrite <- parent_take by lia.
    eapply Htree; [| exact Hnd].
    destruct P; [cbn in Hn; lia | discriminate]. }
  destruct (decide (m = n)) as [-> | Hne]; [exact Hpar |].
  apply IH; [lia | | lia].
  apply isdir_true in Hpar as [b Hb]. rewrite Hb. eauto.
Qed.

Lemma tree_shaped_below (t : filesystem) (P : path) (n m : nat) :
  tree_shaped t -> node_at t (take n P) = None ->
  (n <= m <= length P)%nat -> node_at t (take m P) = None.
Proof.
  intros Htree Hnone Hm.
  destruct (decide (m = n)) as [-> | Hne]; [exact Hnone |].
  destruct (node_at t (take m P)) as [nd |] eqn:Hnd; [| reflexivity].
  assert (Hdir : isdir t (take n P) = true).
  { apply (tree_shaped_above t P m Htree); [lia | rewrite Hnd; eauto | lia]. }
  apply isdir_true in Hdir as [b Hb]. congruence.
Qed.

Lemma tree_shaped_ready_missing (t : filesystem) (P : path) (k : nat) :
  tree_shaped t -> (k < length P)%nat ->
  node_at t (take k P) = Some (Dir true) ->
  node_at t (take (S k) P) = None ->
  path_ready t P k.
Proof.
  intros Htree Hk Hdir Hnone. repeat split.
  - lia.
  - intros n Hn. destruct (decide (n = k)) as [-> | Hne].
    + apply isdir_true. eauto.
    + apply (tree_shaped_above t P k Htree); [lia | rewrite Hdir; eauto | lia].
  - intros n Hn. apply (tree_shaped_below t P (S k)); [exact Htree | exact Hnone | lia].
  - intros _. exact Hdir.
Qed.

Lemma tree_shaped_ready_existing (t : filesystem) (P : path) :
  tree_shaped t -> isdir t P = true -> path_ready t P (length P).
Proof.
  intros Htree Hdir. repeat split.
  - lia.
  - intros n Hn. destruct (decide (n = length P)) as [-> | Hne].
    + now rewrite firstn_all.
    + apply (tree_shaped_above t P (length P) Htree); [lia | | lia].
      rewrite firstn_all. apply isdir_true in Hdir as [b Hb]. rewrite Hb. eauto.
  - intros n Hn. lia.
  - intros Hn. lia.
Qed.

(* ===================================================================== *)
(** * Properties: the run of the script                                   *)
(* ===================================================================== *)

(** Writing a file succeeds exactly on a writable target, and a failed write
    changes nothing. *)
Lemma write_file_cases (p : path) (data : list Byte.byte) (w : world) :
  (writable_target (fs w) p /\ p <> [] /\
   write_file p data w
   = (Ok tt, mkWorld (put (fs w) p (File true data)) (calls w ++ [SysWrite p data])))
  \/ (~ writable_target (fs w) p /\ exists e, write_file p data w = (Raise e, w)).
Proof.
  unfold write_file, write_fs, writable_target.
  destruct (node_at (fs w) p) as [[b | [|] old] |] eqn:Hp.
  - right. split; [| eauto]. intros [[? ?] | [? _]]; discriminate.
  - left. split; [eauto |]. split; [intros ->; discriminate | reflexivity].
  - right. split; [| eauto]. intros [[? ?] | [? _]]; discriminate.
  - assert (Hne : p <> []) by (intros ->; discriminate).
    destruct (node_at (fs w) (parent p)) as [[[|] | ? ?] |] eqn:Hpar.
    + left. split; [right; auto |]. split; [exact Hne | reflexivity].
    + right. split; [| eauto]. intros [[? ?] | [_ ?]]; discriminate.
    + right. split; [| eauto]. intros [[? ?] | [_ ?]]; discriminate.
    + right. split; [| eauto]. intros [[? ?] | [_ ?]]; discriminate.
Qed.

Lemma master_path_eq : master_path = output_path ++ ["icon_512x512@2x.png"%string].
Proof. reflexivity. Qed.

Lemma derivative_path_eq : derivative_path = output_path ++ ["icon_512x512.png"%string].
Proof. reflexivity. Qed.

Lemma master_derivative_differ : master_path <> derivative_path.
Proof.
  rewrite master_path_eq, derivative_path_eq. intros Heq.
  apply app_inv_head in Heq. discriminate.
Qed.

Lemma not_prefix_of_output (name : string) :
  ~ (output_path ++ [name]) `prefix_of` output_path.
Proof.
  intros Hpre%prefix_length. rewrite length_app in Hpre. cbn in Hpre. lia.
Qed.

Lemma makedirs_output_dir (exist_ok : bool) (w : world) :
  makedirs output_dir exist_ok w = makedirs_rev (rev output_path) exist_ok w.
Proof. unfold makedirs, output_path. reflexivity. Qed.

Section Run.
Context `{Pillow}.

(** The script after rendering, statement by statement. *)
Lemma main_run (m : Image rgba) (w : world) :
  img_master = Ok m ->
  main w =
  match makedirs_rev (rev output_path) true w with
  | (Ok _, w1) =>
      match write_file master_path (png_encode m) w1 with
      | (Ok _, w2) =>
          match write_file derivative_path (png_encode (img_512_of m)) w2 with
          | (Ok _, w3) => print "Icon generated successfully!" w3
          | (Raise e, w3) => (Raise e, w3)
          end
      | (Raise e, w2) => (Raise e, w2)
      end
  | (Raise e, w1) => (Raise e, w1)
  end.
Proof.
  intros Hm. unfold main. rewrite Hm.
  unfold mbind, IO_bind, lift, makedirs, Image_save,
    output_path, master_path, derivative_path.
  destruct (makedirs_rev _ true w) as [[[] | e] w1]; [| reflexivity].
  destruct (write_file _ (png_encode m) w1) as [[[] | e] w2]; [| reflexivity].
  destruct (write_file _ (png_encode (img_512_of m)) w2)
    as [[[] | e] w3]; reflexivity.
Qed.

#[local] Opaque output_path master_path derivative_path.

(** Every run ends in one of the four outcomes. *)
Lemma main_outcome (m : Image rgba) (w : world) (r : result unit) (w' : world) :
  img_master = Ok m -> main w = (r, w') -> run_outcome m w r w'.
Proof.
  intros Hm. rewrite (main_run m w Hm).
  destruct (makedirs_rev (rev output_path) true w) as [r1 w1] eqn:Hmk.
  destruct (makedirs_rev_effect _ _ _ _ _ Hmk) as (ds & Hcr & Hpre & Hdir).
  rewrite rev_involutive in Hpre, Hdir.
  destruct r1 as [[] | e];
    [| intros [= <- <-]; exact (makedirs_raised m w e w1 ds Hcr Hpre)].
  specialize (Hdir eq_refl).
  destruct (write_file_cases master_path (png_encode m) w1)
    as [(Hw1 & _ & ->) | (Hw1 & e & ->)];
    [| intros [= <- <-]; exact (master_save_raised m w e w1 ds Hcr Hpre Hdir Hw1)].
  match goal with
  | |- context [write_file derivative_path ?d ?w2] =>
      destruct (write_file_cases derivative_path d w2)
        as [(Hw2 & _ & ->) | (Hw2 & e & ->)]
  end; cbn [fs calls] in Hw2.
  - unfold print. cbn [fs calls]. rewrite <- !app_assoc. cbn [app].
    intros [= <- <-]. exact (completed m w w1 ds Hcr Hpre Hdir Hw1 Hw2).
  - intros [= <- <-].
    exact (derivative_save_raised m w e w1 ds Hcr Hpre Hdir Hw1 Hw2).
Qed.

(** Where the destination can be made and both targets can be written, the
    run completes. *)
Lemma main_completes (w : world) (k : nat) :
  path_ready (fs w) output_path k ->
  (forall w1 ds, created w w1 ds ->
     Forall (fun d => d `prefix_of` output_path) ds ->
     isdir (fs w1) output_path = true ->
     writable_target (fs w1) master_path /\
     forall data,
       writable_target (put (fs w1) master_path (File true data)) derivative_path) ->
  exists w', main w = (Ok tt, w').
Proof.
  intros Hready Htargets.
  destruct img_master_spec as (m & Hm & _).
  rewrite (main_run m w Hm).
  rewrite <- (rev_involutive output_path) in Hready.
  destruct (makedirs_rev_succeeds _ _ _ Hready) as [w1 Hmk]. rewrite Hmk.
  destruct (makedirs_rev_effect _ _ _ _ _ Hmk) as (ds & Hcr & Hpre & Hdir).
  rewrite rev_involutive in Hpre, Hdir. specialize (Hdir eq_refl).
  destruct (Htargets w1 ds Hcr Hpre Hdir) as [Hw1 Hw2].
  destruct (write_file_cases master_path (png_encode m) w1)
    as [(_ & _ & ->) | (Hno & _)]; [| exact (False_ind _ (Hno Hw1))].
  match goal with
  | |- context [write_file derivative_path ?d ?w2] =>
      destruct (write_file_cases derivative_path d w2)
        as [(_ & _ & ->) | (Hno & _)]
  end.
  - unfold print. eexists. reflexivity.
  - cbn [fs] in Hno. exact (False_ind _ (Hno (Hw2 _))).
Qed.

End Run.

(** From here on the three paths are names: their components matter only
    through the equations above. *)
Opaque output_path master_path derivative_path.

Section RunFacts.
Context `{Pillow}.

(** A completed run, spelled out. *)
Lemma main_ok_spec (w w' : world) :
  main w = (Ok tt, w') ->
  exists m ds w1,
    img_master = Ok m /\ size_of m = (size, size) /\
    created w w1 ds /\
    Forall (fun d => d `prefix_of` output_path) ds /\
    isdir (fs w1) output_path = true /\
    w' = mkWorld
           (put (put (fs w1) master_path (File true (png_encode m)))
              derivative_path (File true (png_encode (img_512_of m))))
           (calls w1 ++
            [SysWrite master_path (png_encode m);
             SysWrite derivative_path (png_encode (img_512_of m));
             SysPrint "Icon generated successfully!"]).
Proof.
  intros Hrun.
  destruct img_master_spec as (m & Hm & Hsize & _).
  pose proof (main_outcome m w _ _ Hm Hrun) as Hout.
  inversion Hout as [| | | w1 ds Hcr Hpre Hdir _ _ Hr Hw'].
  exists m, ds, w1.
  exact (conj Hm (conj Hsize (conj Hcr (conj Hpre (conj Hdir eq_refl))))).
Qed.

(** A failed run, spelled out: the calls it made are the directories it
    created, followed by the write of the master file if the failure came
    after it. *)
Lemma main_raise_spec (w w' : world) (e : exn) :
  main w = (Raise e, w') ->
  exists m ds w1,
    img_master = Ok m /\ created w w1 ds /\
    Forall (fun d => d `prefix_of` output_path) ds /\
    (w' = w1 \/
     w' = mkWorld (put (fs w1) master_path (File true (png_encode m)))
            (calls w1 ++ [SysWrite master_path (png_encode m)])).
Proof.
  intros Hrun.
  destruct img_master_spec as (m & Hm & _).
  pose proof (main_outcome m w _ _ Hm Hrun) as Hout.
  inversion Hout; subst; eexists m, _, _;
    (split; [exact Hm |]); (split; [eassumption |]); (split; [eassumption |]);
    first [left; reflexivity | right; reflexivity].
Qed.

End RunFacts.

Lemma master_not_prefix : ~ master_path `prefix_of` output_path.
Proof. rewrite master_path_eq. apply not_prefix_of_output. Qed.

Lemma derivative_not_prefix : ~ derivative_path `prefix_of` output_path.
Proof. rewrite derivative_path_eq. apply not_prefix_of_output. Qed.

Lemma output_not_master : output_path <> master_path.
Proof.
  intros Heq. apply master_not_prefix. rewrite <- Heq. reflexivity.
Qed.

Lemma output_not_derivative : output_path <> derivative_path.
Proof.
  intros Heq. apply derivative_not_prefix. rewrite <- Heq. reflexivity.
Qed.

Lemma master_path_nonempty : master_path <> [].
Proof. rewrite master_path_eq. intros Heq. now apply app_eq_nil in Heq as [_ ?]. Qed.

Lemma derivative_path_nonempty : derivative_path <> [].
Proof. rewrite derivative_path_eq. intros Heq. now apply app_eq_nil in Heq as [_ ?]. Qed.

Lemma parent_master : parent master_path = output_path.
Proof. rewrite master_path_eq. apply parent_snoc. Qed.

Lemma parent_derivative : parent derivative_path = output_path.
Proof. rewrite derivative_path_eq. apply parent_snoc. Qed.

(** Making directories along the destination leaves every other path as it
    was. *)
Lemma created_off_path (w w1 : world) (ds : list path) (p : path) :
  created w w1 ds ->
  Forall (fun d => d `prefix_of` output_path) ds ->
  ~ p `prefix_of` output_path ->
  node_at (fs w1) p = node_at (fs w) p.
Proof.
  intros (_ & _ & Hn & _) Hpre Hp. rewrite Hn.
  rewrite bool_decide_eq_false_2; [reflexivity |].
  intros Hin. rewrite Forall_forall in Hpre. exact (Hp (Hpre p Hin)).
Qed.

(** A directory that was missing and is there after [created] is one of the
    new, writable ones. *)
Lemma created_was_missing (w w1 : world) (ds : list path) (p : path) :
  created w w1 ds ->
  node_at (fs w) p = None -> isdir (fs w1) p = true ->
  node_at (fs w1) p = Some (Dir true).
Proof.
  intros (_ & _ & Hn & _) Hnone [b Hb]%isdir_true.
  rewrite Hn in Hb |- *. case_bool_decide; [reflexivity | congruence].
Qed.

(** On a missing destination whose deepest existing ancestor is writable,
    both files can be written once the directories are made. *)
Lemma targets_when_missing (w : world) (k : nat) :
  tree_shaped (fs w) ->
  (k < length output_path)%nat ->
  node_at (fs w) (take (S k) output_path) = None ->
  forall w1 ds,
    created w w1 ds ->
    Forall (fun d => d `prefix_of` output_path) ds ->
    isdir (fs w1) output_path = true ->
    writable_target (fs w1) master_path /\
    forall data,
      writable_target (put (fs w1) master_path (File true data)) derivative_path.
Proof.
  intros Htree Hk Hnone w1 ds Hcr Hpre Hdir.
  assert (Hout : node_at (fs w) output_path = None).
  { rewrite <- (firstn_all output_path).
    apply (tree_shaped_below _ _ (S k)); [exact Htree | exact Hnone | lia]. }
  assert (Hnew : node_at (fs w1) output_path = Some (Dir true))
    by (eapply created_was_missing; eassumption).
  assert (Hfile : forall p, parent p = output_path -> p <> [] ->
                    ~ p `prefix_of` output_path -> node_at (fs w1) p = None).
  { intros p Hpar Hne Hnp.
    rewrite (created_off_path w w1 ds p Hcr Hpre Hnp).
    destruct (node_at (fs w) p) as [nd |] eqn:Hnd; [| reflexivity].
    pose proof (Htree p nd Hne Hnd) as Hd. rewrite Hpar in Hd.
    apply isdir_true in Hd as [b Hb]. congruence. }
  split.
  - right. rewrite parent_master. split; [| exact Hnew].
    apply Hfile; [apply parent_master | apply master_path_nonempty
                 | apply master_not_prefix].
  - intros data. right.
    rewrite !node_at_put by apply master_path_nonempty.
    rewrite parent_derivative.
    rewrite decide_False by (intros Heq; exact (master_derivative_differ (eq_sym Heq))).
    rewrite decide_False by apply output_not_master.
    split; [| exact Hnew].
    apply Hfile; [apply parent_derivative | apply derivative_path_nonempty
                 | apply derivative_not_prefix].
Qed.

(** Where both files exist and are writable, they can be written again. *)
Lemma targets_when_present (w : world) (old1 old2 : list Byte.byte) :
  node_at (fs w) master_path = Some (File true old1) ->
  node_at (fs w) derivative_path = Some (File true old2) ->
  forall w1 ds,
    created w w1 ds ->
    Forall (fun d => d `prefix_of` output_path) ds ->
    isdir (fs w1) output_path = true ->
    writable_target (fs w1) master_path /\
    forall data,
      writable_target (put (fs w1) master_path (File true data)) derivative_path.
Proof.
  intros Hm Hd w1 ds Hcr Hpre _. split.
  - left. exists old1.
    rewrite (created_off_path w w1 ds _ Hcr Hpre master_not_prefix). exact Hm.
  - intros data. left. exists old2.
    rewrite node_at_put by apply master_path_nonempty.
    rewrite decide_False by (intros Heq; exact (master_derivative_differ (eq_sym Heq))).
    rewrite (created_off_path w w1 ds _ Hcr Hpre derivative_not_prefix). exact Hd.
Qed.

(** [os.makedirs] on a directory that is there returns and changes
    nothing. *)
Lemma makedirs_existing (P : path) (w : world) :
  tree_shaped (fs w) -> isdir (fs w) P = true ->
  makedirs_rev (rev P) true w = (Ok tt, w).
Proof.
  intros Htree Hdir. destruct P as [| c P _] using rev_ind.
  - apply makedirs_rev_nil.
  - rewrite rev_app_distr. cbn [rev app]. rewrite makedirs_rev_cons. cbn zeta.
    rewrite rev_involutive.
    assert (Hpar : isdir (fs w) P = true).
    { apply isdir_true in Hdir as [b Hb].
      rewrite <- (parent_snoc P c). eapply Htree; [| exact Hb].
      intros Heq. now apply app_eq_nil in Heq as [_ ?]. }
    rewrite (exists_of_isdir _ _ Hpar). now apply mkdir_exist_ok_existing.
Qed.

(** ** The three example trees *)

Lemma output_path_length : length output_path = 8%nat.
Proof. vm_compute. reflexivity. Qed.

Lemma tree_shaped_decide (t : filesystem) :
  map_Forall (fun p _ => p <> [] -> isdir t (parent p) = true) (nodes t) ->
  tree_shaped t.
Proof.
  intros Hall p n Hne Hp. destruct p as [| c p]; [congruence |].
  exact (Hall (c :: p) n Hp Hne).
Qed.

Lemma fresh_world_tree : tree_shaped (fs fresh_world).
Proof. apply tree_shaped_decide. apply map_Forall_empty. Qed.

Lemma rerun_world_tree : tree_shaped (fs rerun_world).
Proof.
  apply tree_shaped_decide. refine (bool_decide_unpack _ _).
  vm_compute. exact I.
Qed.

Lemma readonly_world_tree : tree_shaped (fs readonly_world).
Proof.
  apply tree_shaped_decide. refine (bool_decide_unpack _ _).
  vm_compute. exact I.
Qed.

Lemma fresh_world_ready : path_ready (fs fresh_world) output_path 0.
Proof.
  apply tree_shaped_ready_missing.
  - apply fresh_world_tree.
  - rewrite output_path_length. lia.
  - reflexivity.
  - vm_compute. reflexivity.
Qed.

Lemma rerun_world_ready :
  path_ready (fs rerun_world) output_path (length output_path).
Proof.
  apply tree_shaped_ready_existing; [apply rerun_world_tree |].
  vm_compute. reflexivity.
Qed.

Lemma readonly_world_ready :
  path_ready (fs readonly_world) output_path (length output_path).
Proof.
  apply tree_shaped_ready_existing; [apply readonly_world_tree |].
  vm_compute. reflexivity.
Qed.

(** The two files in the tree a completed run leaves. *)
Lemma node_at_final_master (t : filesystem) (a b : node) :
  node_at (put (put t master_path a) derivative_path b) master_path = Some a.
Proof.
  rewrite (node_at_put _ derivative_path master_path b derivative_path_nonempty).
  rewrite (decide_False (P := master_path = derivative_path))
    by exact master_derivative_differ.
  rewrite (node_at_put _ master_path master_path a master_path_nonempty).
  apply decide_True. reflexivity.
Qed.

Lemma node_at_final_derivative (t : filesystem) (a b : node) :
  node_at (put (put t master_path a) derivative_path b) derivative_path = Some b.
Proof.
  rewrite (node_at_put _ derivative_path derivative_path b derivative_path_nonempty).
  apply decide_True. reflexivity.
Qed.

Lemma node_at_final_other (t : filesystem) (a b : node) (p : path) :
  p <> master_path -> p <> derivative_path ->
  node_at (put (put t master_path a) derivative_path b) p = node_at t p.
Proof.
  intros Hm Hd.
  rewrite (node_at_put _ derivative_path p b derivative_path_nonempty).
  rewrite (decide_False (P := p = derivative_path)) by exact Hd.
  rewrite (node_at_put _ master_path p a master_path_nonempty).
  apply decide_False. exact Hm.
Qed.

Section SavedFiles.
Context `{Pillow}.

(** What a completed run has saved under the two names. *)
Lemma main_ok_files (m : Image rgba) (w w' : world) :
  img_master = Ok m -> main w = (Ok tt, w') ->
  node_at (fs w') master_path = Some (File true (png_encode m)) /\
  node_at (fs w') derivative_path = Some (File true (png_encode (img_512_of m))).
Proof.
  intros Hm Hrun.
  destruct (main_ok_spec w w' Hrun) as (m' & ds & w1 & Hm' & _ & _ & _ & _ & ->).
  rewrite Hm in Hm'. injection Hm' as <-. cbn [fs].
  split; [apply node_at_final_master | apply node_at_final_derivative].
Qed.

End SavedFiles.

(* ===================================================================== *)
(** * Claims about the output files                                       *)
(* ===================================================================== *)

(** C3.  The master image is 1024 by 1024 pixels; the derivative is the
    resize of the master to (512, 512) with the Lanczos filter, a function of
    the master image alone, 512 by 512 pixels, half the master each way; and
    these two images are what a completed run has saved under the two
    names. *)
Theorem output_dimensions `{Pillow} :
  returns img_master (fun m =>
    size_of m = (1024, 1024) /\
    img_512_of m = resize m (512, 512) LANCZOS /\
    size_of (img_512_of m) = (512, 512) /\
    2 * width (img_512_of m) = width m /\
    2 * height (img_512_of m) = height m /\
    (forall x y, pixel (img_512_of m) x y = resample LANCZOS m (512, 512) x y) /\
    forall w w',
      main w = (Ok tt, w') ->
      node_at (fs w') master_path = Some (File true (png_encode m)) /\
      node_at (fs w') derivative_path
      = Some (File true (png_encode (img_512_of m)))).
Proof.
  destruct img_master_spec as (m & Hm & Hsize & _).
  exists m. split; [exact Hm |].
  split; [exact Hsize |]. split; [reflexivity |]. split; [reflexivity |].
  unfold width, height. rewrite Hsize. cbn [fst snd img_512_of resize size_of].
  split; [reflexivity |]. split; [reflexivity |]. split; [reflexivity |].
  intros w w' Hrun. exact (main_ok_files m w w' Hm Hrun).
Qed.

(** C4.  Any two completed runs, from whatever two worlds, leave the same
    bytes in the master file and the same bytes in the derivative file: the
    script reads nothing, and every step of it is a function of its
    constants. *)
Theorem runs_write_identical_files `{Pillow} (w1 w2 w1' w2' : world) :
  main w1 = (Ok tt, w1') ->
  main w2 = (Ok tt, w2') ->
  (exists data, node_at (fs w1') master_path = Some (File true data) /\
                node_at (fs w2') master_path = Some (File true data)) /\
  (exists data, node_at (fs w1') derivative_path = Some (File true data) /\
                node_at (fs w2') derivative_path = Some (File true data)).
Proof.
  intros Hrun1 Hrun2.
  destruct img_master_spec as (m & Hm & _).
  destruct (main_ok_files m _ _ Hm Hrun1) as [Hm1 Hd1].
  destruct (main_ok_files m _ _ Hm Hrun2) as [Hm2 Hd2].
  split.
  - exists (png_encode m). exact (conj Hm1 Hm2).
  - exists (png_encode (img_512_of m)). exact (conj Hd1 Hd2).
Qed.

Section ExampleRuns.
Context `{Pillow}.

Lemma fresh_world_completes : exists w', main fresh_world = (Ok tt, w').
Proof.
  apply (main_completes fresh_world 0 fresh_world_ready).
  apply (targets_when_missing fresh_world 0).
  - apply fresh_world_tree.
  - rewrite output_path_length. lia.
  - vm_compute. reflexivity.
Qed.

Lemma rerun_world_completes : exists w', main rerun_world = (Ok tt, w').
Proof.
  apply (main_completes rerun_world _ rerun_world_ready).
  apply (targets_when_present rerun_world [Byte.x00] [Byte.x01]);
    vm_compute; reflexivity.
Qed.

End ExampleRuns.

Lemma runs_write_identical_files_witness :
  exists w1' w2' master_bytes derivative_bytes,
    @main reference_pillow fresh_world = (Ok tt, w1') /\
    @main reference_pillow rerun_world = (Ok tt, w2') /\
    node_at (fs w1') master_path = Some (File true master_bytes) /\
    node_at (fs w2') master_path = Some (File true master_bytes) /\
    node_at (fs w1') derivative_path = Some (File true derivative_bytes) /\
    node_at (fs w2') derivative_path = Some (File true derivative_bytes).
Proof.
  destruct (@fresh_world_completes reference_pillow) as [w1' Hrun1].
  destruct (@rerun_world_completes reference_pillow) as [w2' Hrun2].
  destruct (@runs_write_identical_files reference_pillow _ _ _ _ Hrun1 Hrun2)
    as [(dm & Hm1 & Hm2) (dd & Hd1 & Hd2)].
  exists w1', w2', dm, dd.
  exact (conj Hrun1 (conj Hrun2 (conj Hm1 (conj Hm2 (conj Hd1 Hd2))))).
Defined.

(** C6.  A completed run has written exactly two files, first the master
    (the 1024 by 1024 image) as [icon_512x512@2x.png], then the derivative
    (the 512 by 512 image) as [icon_512x512.png], both directly in the
    destination directory.  Besides them its calls are the [mkdir]s of missing
    directories along the destination and the final [print]; it reads
    nothing; and every other path of the file tree is as it was, or is one of
    the directories it made. *)
Theorem run_writes_exactly_two_files `{Pillow} (w w' : world) :
  main w = (Ok tt, w') ->
  exists m ds,
    img_master = Ok m /\
    size_of m = (1024, 1024) /\ size_of (img_512_of m) = (512, 512) /\
    master_path = output_path ++ ["icon_512x512@2x.png"%string] /\
    derivative_path = output_path ++ ["icon_512x512.png"%string] /\
    calls w' = calls w ++ map SysMkdir ds ++
               [SysWrite master_path (png_encode m);
                SysWrite derivative_path (png_encode (img_512_of m));
                SysPrint "Icon generated successfully!"] /\
    Forall (fun d => d `prefix_of` output_path) ds /\
    node_at (fs w') master_path = Some (File true (png_encode m)) /\
    node_at (fs w') derivative_path
    = Some (File true (png_encode (img_512_of m))) /\
    forall p, p <> master_path -> p <> derivative_path ->
      node_at (fs w') p
      = if bool_decide (p ∈ ds) then Some (Dir true) else node_at (fs w) p.
Proof.
  intros Hrun.
  destruct (main_ok_spec w w' Hrun)
    as (m & ds & w1 & Hm & Hsize & Hcr & Hpre & _ & ->).
  exists m, ds. cbn [fs calls].
  destruct Hcr as (Hcalls & _ & Hn & _).
  split; [exact Hm |]. split; [exact Hsize |]. split; [reflexivity |].
  split; [exact master_path_eq |]. split; [exact derivative_path_eq |].
  split; [rewrite Hcalls, <- app_assoc; reflexivity |].
  split; [exact Hpre |].
  split; [apply node_at_final_master |].
  split; [apply node_at_final_derivative |].
  intros p Hpm Hpd. rewrite node_at_final_other by assumption. apply Hn.
Qed.

Lemma run_writes_exactly_two_files_witness :
  exists w' m ds,
    @main reference_pillow fresh_world = (Ok tt, w') /\
    @img_master reference_pillow = Ok m /\
    calls w' = map SysMkdir ds ++
               [SysWrite master_path (@png_encode reference_pillow m);
                SysWrite derivative_path
                  (@png_encode reference_pillow (@img_512_of reference_pillow m));
                SysPrint "Icon generated successfully!"].
Proof.
  destruct (@fresh_world_completes reference_pillow) as [w' Hrun].
  destruct (@run_writes_exactly_two_files reference_pillow _ _ Hrun)
    as (m & ds & Hm & _ & _ & _ & _ & Hcalls & _).
  exists w', m, ds. exact (conj Hrun (conj Hm Hcalls)).
Defined.

(** C7.  Before it saves, the script makes sure the destination directory is
    there.  In a file tree where the destination is a directory already,
    [os.makedirs] returns without an error and changes nothing.  Where the
    destination is missing, below an ancestor that is a writable directory,
    the run completes: it makes the missing directories one by one, the
    destination last, before the first file is written, and leaves the
    destination as a directory with both files in it. *)
Theorem destination_directory_ensured `{Pillow} (w : world) :
  tree_shaped (fs w) ->
  (isdir (fs w) output_path = true ->
   makedirs output_dir true w = (Ok tt, w)) /\
  (forall k,
      (k < length output_path)%nat ->
      node_at (fs w) (take k output_path) = Some (Dir true) ->
      node_at (fs w) (take (S k) output_path) = None ->
      exists w' m ds,
        main w = (Ok tt, w') /\
        calls w' = calls w ++ map SysMkdir ds ++
                   [SysWrite master_path (png_encode m);
                    SysWrite derivative_path (png_encode (img_512_of m));
                    SysPrint "Icon generated successfully!"] /\
        output_path ∈ ds /\
        Forall (fun d => d `prefix_of` output_path /\ node_at (fs w) d = None) ds /\
        node_at (fs w') output_path = Some (Dir true) /\
        (exists data, node_at (fs w') master_path = Some (File true data)) /\
        (exists data, node_at (fs w') derivative_path = Some (File true data))).
Proof.
  intros Htree. split.
  - intros Hdir. rewrite makedirs_output_dir. now apply makedirs_existing.
  - intros k Hk Hdir Hnone.
    pose proof (tree_shaped_ready_missing _ _ _ Htree Hk Hdir Hnone) as Hready.
    destruct (main_completes w k Hready
                (targets_when_missing w k Htree Hk Hnone)) as [w' Hrun].
    destruct (main_ok_spec w w' Hrun)
      as (m & ds & w1 & Hm & _ & Hcr & Hpre & Hd1 & Hw').
    exists w', m, ds. split; [exact Hrun |]. subst w'. cbn [fs calls].
    assert (Hmissing : node_at (fs w) output_path = None).
    { rewrite <- (firstn_all output_path).
      apply (tree_shaped_below _ _ (S k)); [exact Htree | exact Hnone | lia]. }
    pose proof (created_was_missing _ _ _ _ Hcr Hmissing Hd1) as Hnew.
    destruct Hcr as (Hcalls & _ & Hn & Hfree).
    split; [rewrite Hcalls, <- app_assoc; reflexivity |].
    split.
    { rewrite Hn, Hmissing in Hnew. case_bool_decide; [assumption | discriminate]. }
    split.
    { rewrite Forall_forall in Hpre, Hfree |- *. intros d Hd.
      split; [exact (Hpre d Hd) | exact (proj1 (Hfree d Hd))]. }
    split.
    { rewrite node_at_final_other;
        [exact Hnew | exact output_not_master | exact output_not_derivative]. }
    split; eexists; [apply node_at_final_master | apply node_at_final_derivative].
Qed.

Lemma destination_directory_ensured_witness :
  exists w',
    @main reference_pillow fresh_world = (Ok tt, w') /\
    node_at (fs fresh_world) output_path = None /\
    node_at (fs w') output_path = Some (Dir true) /\
    (exists data, node_at (fs w') master_path = Some (File true data)) /\
    (exists data, node_at (fs w') derivative_path = Some (File true data)).
Proof.
  destruct (@destination_directory_ensured reference_pillow fresh_world
              fresh_world_tree) as [_ Hmake].
  destruct (Hmake 0%nat) as (w' & m & ds & Hrun & _ & _ & _ & Hdir & Hm & Hd).
  - rewrite output_path_length. lia.
  - reflexivity.
  - vm_compute. reflexivity.
  - exists w'. split; [exact Hrun |]. split; [vm_compute; reflexivity |].
    exact (conj Hdir (conj Hm Hd)).
Defined.

(* ===================================================================== *)
(** * Claims about failed runs                                            *)
(* ===================================================================== *)

Lemma new_calls_unique (w w' : world) (cs cs' : list syscall) :
  new_calls w w' cs -> new_calls w w' cs' -> cs = cs'.
Proof.
  unfold new_calls. intros H1 H2. rewrite H1 in H2.
  now apply app_inv_head in H2.
Qed.

Lemma mkdirs_write_nothing (ds : list path) (p : path) :
  ~ writes_to p (map SysMkdir ds).
Proof.
  intros [data Hin]. apply in_map_iff in Hin as (d & Hd & _). discriminate.
Qed.

Section FailedRuns.
Context `{Pillow}.

(** A run that raised has made directories and, at most, written the master
    file, which then stays as written; the derivative was neither written
    nor touched. *)
Lemma failed_run_effect (w w' : world) (e : exn) :
  main w = (Raise e, w') ->
  exists cs,
    new_calls w w' cs /\
    ~ writes_to derivative_path cs /\
    node_at (fs w') derivative_path = node_at (fs w) derivative_path /\
    (writes_to master_path cs ->
     exists m, img_master = Ok m /\
               node_at (fs w') master_path = Some (File true (png_encode m))).
Proof.
  intros Hrun.
  destruct (main_raise_spec w w' e Hrun) as (m & ds & w1 & Hm & Hcr & Hpre & Hw').
  pose proof (created_off_path w w1 ds _ Hcr Hpre derivative_not_prefix) as Hd.
  destruct Hcr as (Hcalls & _).
  destruct Hw' as [-> | ->].
  - exists (map SysMkdir ds). split; [exact Hcalls |].
    split; [apply mkdirs_write_nothing |]. split; [exact Hd |].
    intros Hwr. exfalso. exact (mkdirs_write_nothing _ _ Hwr).
  - exists (map SysMkdir ds ++ [SysWrite master_path (png_encode m)]).
    cbn [fs calls]. split; [unfold new_calls; cbn [calls]; rewrite Hcalls, <- app_assoc; reflexivity |].
    split.
    { intros [data Hin]. apply in_app_or in Hin as [Hin | [Hin | []]].
      - exact (mkdirs_write_nothing ds derivative_path (ex_intro _ data Hin)).
      - apply (f_equal (fun c => match c with SysWrite p _ => p | _ => [] end)) in Hin.
        exact (master_derivative_differ Hin). }
    split.
    { rewrite (node_at_put _ master_path derivative_path _ master_path_nonempty).
      rewrite (decide_False (P := derivative_path = master_path))
        by (intros Heq; exact (master_derivative_differ (eq_sym Heq))).
      exact Hd. }
    intros _. exists m. split; [exact Hm |].
    rewrite (node_at_put _ master_path master_path _ master_path_nonempty).
    apply decide_True. reflexivity.
Qed.

(** On the read-only destination the master file is replaced, and the save
    of the derivative raises. *)
Lemma readonly_world_run :
  exists m e,
    img_master = Ok m /\
    main readonly_world
    = (Raise e,
       mkWorld (put (fs readonly_world) master_path (File true (png_encode m)))
         [SysWrite master_path (png_encode m)]).
Proof.
  destruct img_master_spec as (m & Hm & _). exists m.
  assert (Hmk : makedirs_rev (rev output_path) true readonly_world
                = (Ok tt, readonly_world)).
  { apply makedirs_existing; [apply readonly_world_tree |].
    vm_compute. reflexivity. }
  assert (Hmaster : writable_target (fs readonly_world) master_path).
  { left. exists [Byte.x00]. vm_compute. reflexivity. }
  assert (Hderiv : forall data,
            ~ writable_target
                (put (fs readonly_world) master_path (File true data))
                derivative_path).
  { intros data [[old Hold] | [_ Hpar]].
    - rewrite (node_at_put _ master_path derivative_path _ master_path_nonempty) in Hold.
      rewrite (decide_False (P := derivative_path = master_path)) in Hold
        by (intros Heq; exact (master_derivative_differ (eq_sym Heq))).
      vm_compute in Hold. discriminate.
    - rewrite parent_derivative in Hpar.
      rewrite (node_at_put _ master_path output_path _ master_path_nonempty) in Hpar.
      rewrite (decide_False (P := output_path = master_path)) in Hpar
        by exact output_not_master.
      vm_compute in Hpar. discriminate. }
  rewrite (main_run m readonly_world Hm).
  rewrite Hmk.
  destruct (write_file_cases master_path (png_encode m) readonly_world)
    as [(_ & _ & ->) | (Hno & _)]; [| exact (False_ind _ (Hno Hmaster))].
  match goal with
  | |- context [write_file derivative_path ?d ?w2] =>
      destruct (write_file_cases derivative_path d w2)
        as [(Hyes & _) | (_ & e & ->)]
  end.
  - exact (False_ind _ (Hderiv _ Hyes)).
  - exists e. split; [exact Hm | reflexivity].
Qed.

End FailedRuns.

(** C8, as the code has it.  A failure is not handled: the run ends with the
    exception, and what was done before it stays done.  A failed run has
    never written the derivative and has left that path untouched; if it has
    written the master file, the file stays, complete.  Such a run exists: on
    a read-only destination holding an older master file, the master is
    rewritten and the derivative is missing afterwards. *)
Theorem failed_run_keeps_master_only `{Pillow} :
  (forall w w' e,
      main w = (Raise e, w') ->
      exists cs,
        new_calls w w' cs /\
        ~ writes_to derivative_path cs /\
        node_at (fs w') derivative_path = node_at (fs w) derivative_path /\
        (writes_to master_path cs ->
         exists m, img_master = Ok m /\
                   node_at (fs w') master_path = Some (File true (png_encode m)))) /\
  (exists w w' e cs,
      main w = (Raise e, w') /\ new_calls w w' cs /\
      writes_to master_path cs /\
      (exists m, img_master = Ok m /\
                 node_at (fs w') master_path = Some (File true (png_encode m))) /\
      node_at (fs w') derivative_path = None).
Proof.
  split; [exact failed_run_effect |].
  destruct readonly_world_run as (m & e & Hm & Hrun).
  destruct (failed_run_effect _ _ _ Hrun) as (cs & Hnew & _ & Hd & Hkeep).
  assert (Hcs : cs = [SysWrite master_path (png_encode m)]).
  { apply (new_calls_unique _ _ _ _ Hnew). reflexivity. }
  assert (Hwr : writes_to master_path cs).
  { rewrite Hcs. exists (png_encode m). left. reflexivity. }
  eexists _, _, e, cs. split; [exact Hrun |]. split; [exact Hnew |].
  split; [exact Hwr |]. split; [exact (Hkeep Hwr) |].
  rewrite Hd. vm_compute. reflexivity.
Qed.

(** The other half of C8 as the spec words it cannot happen: no failed run,
    with any rasterizer and from any world, has written the derivative, so
    none leaves the derivative written and the master missing. *)
Lemma derivative_written_master_missing_impossible :
  ~ exists (P : Pillow) (w w' : world) (e : exn) (cs : list syscall),
      @main P w = (Raise e, w') /\ new_calls w w' cs /\
      writes_to derivative_path cs /\ node_at (fs w') master_path = None.
Proof.
  intros (P & w & w' & e & cs & Hrun & Hnew & Hwr & _).
  destruct (@failed_run_effect P _ _ _ Hrun) as (cs' & Hnew' & Hnot & _).
  rewrite (new_calls_unique _ _ _ _ Hnew Hnew') in Hwr. exact (Hnot Hwr).
Qed.
(* ===================================================================== *)
(** * Further properties: [rounded_rect] on any rectangle                 *)
(* ===================================================================== *)

(** ** What the arithmetic of a row can raise *)

Lemma float_of_int_raises (n : Z) (e : exn) :
  Py.float_of_int n = Raise e -> e = OverflowError.
Proof.
  unfold Py.float_of_int.
  destruct (binary_normalize Py.prec Py.emax n 0 false); congruence.
Qed.

Lemma int_of_float_raises (x : Py.float) (e : exn) :
  Py.int_of_float x = Raise e -> e = OverflowError \/ e = ValueError.
Proof. destruct x; cbn; intros [= <-]; auto. Qed.

Lemma int_truediv_raises (a b : Z) (e : exn) :
  Py.int_truediv a b = Raise e ->
  (e = ZeroDivisionError /\ b = 0) \/ e = OverflowError.
Proof.
  unfold Py.int_truediv. destruct (b =? 0) eqn:Hb.
  - intros [= <-]. left. split; [reflexivity | now apply Z.eqb_eq].
  - destruct (SFdiv Py.prec Py.emax (Py.exact_int a) (Py.exact_int b));
      intros [= <-]. now right.
Qed.

Lemma gradient_channel_raises (top bottom : Z) (t : Py.float) (e : exn) :
  gradient_channel top bottom t = Raise e -> e = OverflowError \/ e = ValueError.
Proof.
  unfold gradient_channel, Py.float_mul_int, Py.int_add_float.
  unfold mbind, result_bind.
  destruct (Py.float_of_int (bottom - top)) as [fd | e1] eqn:Ed.
  - destruct (Py.float_of_int top) as [ft | e2] eqn:Et.
    + apply int_of_float_raises.
    + intros [= <-]. left. exact (float_of_int_raises _ _ Et).
  - intros [= <-]. left. exact (float_of_int_raises _ _ Ed).
Qed.

(** A row raises [ZeroDivisionError] only on a rectangle of height 0. *)
Lemma row_fill_raises (y0 y1 : Z) (ft fb : Z * Z * Z) (y : Z) (e : exn) :
  row_fill y0 y1 ft fb y = Raise e ->
  (e = ZeroDivisionError /\ y1 = y0) \/ e = OverflowError \/ e = ValueError.
Proof.
  destruct ft as [[tr tg] tb], fb as [[br bg] bb]. unfold row_fill.
  unfold mbind, result_bind.
  destruct (Py.int_truediv (y - y0) (y1 - y0)) as [t | e0] eqn:Et.
  - destruct (gradient_channel tr br t) as [r | e1] eqn:Er;
      [| intros [= <-]; right; exact (gradient_channel_raises _ _ _ _ Er)].
    destruct (gradient_channel tg bg t) as [g | e2] eqn:Eg;
      [| intros [= <-]; right; exact (gradient_channel_raises _ _ _ _ Eg)].
    destruct (gradient_channel tb bb t) as [b | e3] eqn:Eb;
      [| intros [= <-]; right; exact (gradient_channel_raises _ _ _ _ Eb)].
    discriminate.
  - intros [= <-]. destruct (int_truediv_raises _ _ _ Et) as [[-> Hz] | ->].
    + left. split; [reflexivity | lia].
    + right. now left.
Qed.

(** The fill of a row is opaque. *)
Lemma row_fill_opaque (y0 y1 : Z) (ft fb : Z * Z * Z) (y : Z) (p : rgba) :
  row_fill y0 y1 ft fb y = Ok p -> alpha p = 255.
Proof.
  destruct ft as [[tr tg] tb], fb as [[br bg] bb]. unfold row_fill.
  unfold mbind, result_bind.
  destruct (Py.int_truediv (y - y0) (y1 - y0)) as [t |]; [| discriminate].
  destruct (gradient_channel tr br t); [| discriminate].
  destruct (gradient_channel tg bg t); [| discriminate].
  destruct (gradient_channel tb bb t); [| discriminate].
  intros [= <-]. reflexivity.
Qed.

Section AnyRectangle.
Context `{Pillow}.

(** The loop stops at the first row that raises, with that exception. *)
Lemma rounded_rect_rows_raises x0 y0 x1 y1 ft fb rows :
  forall im e,
    rounded_rect_rows im x0 y0 x1 y1 ft fb rows = Raise e ->
    exists y, y ∈ rows /\ row_fill y0 y1 ft fb y = Raise e.
Proof.
  induction rows as [| y rows IH]; intros im e; [discriminate |].
  cbn [rounded_rect_rows]. unfold mbind, result_bind.
  destruct (row_fill y0 y1 ft fb y) as [fill | e0] eqn:Ey.
  - intros Hrun. destruct (IH _ _ Hrun) as (y' & Hin & Hy').
    exists y'. split; [now apply list_elem_of_further | exact Hy'].
  - intros [= <-]. exists y. split; [apply list_elem_of_here | exact Ey].
Qed.

(** When the loop returns, every row had a fill. *)
Lemma rounded_rect_rows_filled x0 y0 x1 y1 ft fb rows :
  forall im im',
    rounded_rect_rows im x0 y0 x1 y1 ft fb rows = Ok im' ->
    Forall (fun y => exists p, row_fill y0 y1 ft fb y = Ok p) rows.
Proof.
  induction rows as [| y rows IH]; intros im im'; [constructor |].
  cbn [rounded_rect_rows]. unfold mbind, result_bind.
  destruct (row_fill y0 y1 ft fb y) as [fill | e0] eqn:Ey; [| discriminate].
  intros Hrun. constructor; [eauto | exact (IH _ _ Hrun)].
Qed.

End AnyRectangle.

(** X1.  [rounded_rect] divides by [y1 - y0] inside a loop over
    [range(y0, y1)], so the division is never by zero: whatever the image, the
    rectangle and the colours, the only exceptions it can raise are those of
    the float arithmetic, [OverflowError] and [ValueError].  On a rectangle
    with no row ([y1 <= y0], height 0 included) it draws nothing and returns
    the image as it was. *)
Theorem rounded_rect_raises_only_arithmetic `{Pillow} (im : Image rgba)
    (x0 y0 x1 y1 radius : Z) (ft fb : Z * Z * Z) :
  (forall e, rounded_rect im (x0, y0, x1, y1) radius ft fb = Raise e ->
             e = OverflowError \/ e = ValueError) /\
  (y1 <= y0 -> rounded_rect im (x0, y0, x1, y1) radius ft fb = Ok im).
Proof.
  split.
  - intros e Hrun. unfold rounded_rect in Hrun.
    apply rounded_rect_rows_raises in Hrun as (y & Hin & Hy).
    apply elem_of_range in Hin.
    destruct (row_fill_raises _ _ _ _ _ _ Hy) as [[_ Hz] | Hother];
      [lia | exact Hother].
  - intros Hempty. unfold rounded_rect, Py.range.
    replace (Z.to_nat (y1 - y0)) with 0%nat by lia. reflexivity.
Qed.

Lemma rounded_rect_raises_only_arithmetic_witness :
  @rounded_rect reference_pillow img_new (0, 7, 1024, 7) 180 fill_top fill_bottom
  = Ok img_new /\
  @rounded_rect reference_pillow img_new (0, 0, 4, 4) 180 (0, 0, 0) (2 ^ 1024, 0, 0)
  = Raise OverflowError.
Proof.
  split.
  - apply (@rounded_rect_raises_only_arithmetic reference_pillow). lia.
  - destruct (@rounded_rect reference_pillow img_new (0, 0, 4, 4) 180 (0, 0, 0)
                (2 ^ 1024, 0, 0)) as [im | e] eqn:E.
    + vm_compute in E. discriminate E.
    + destruct (proj1 (@rounded_rect_raises_only_arithmetic reference_pillow
                         img_new 0 0 4 4 180 (0, 0, 0) (2 ^ 1024, 0, 0)) e E)
        as [-> | ->]; [reflexivity |].
      vm_compute in E. discriminate E.
Defined.

(** X2.  What a returning call of [rounded_rect] has painted, on any image
    and any rectangle, for colours with 8-bit channels and coordinates in the
    range of a C [int] (what Pillow stores and draws as given; it clips a
    channel outside 0..255).  The image keeps its size.  The rows painted are
    [y0 <= y < y1], the last one excluded, while the columns run from one
    end of [x0], [x1] to the other, both included (a line holds both its end
    points); there, inside the image, the pixel holds the fill computed for
    its row, with alpha 255.  Every other pixel is as it was. *)
Theorem rounded_rect_frame `{Pillow} (im im' : Image rgba)
    (x0 y0 x1 y1 radius : Z) (ft fb : Z * Z * Z) :
  eight_bit ft -> eight_bit fb ->
  int32 x0 -> int32 y0 -> int32 x1 -> int32 y1 ->
  rounded_rect im (x0, y0, x1, y1) radius ft fb = Ok im' ->
  size_of im' = size_of im /\
  forall x y,
    if in_bounds im x y && (y0 <=? y) && (y <? y1)
       && (Z.min x0 x1 <=? x) && (x <=? Z.max x0 x1)
    then row_fill y0 y1 ft fb y = Ok (pixel im' x y) /\ alpha (pixel im' x y) = 255
    else pixel im' x y = pixel im x y.
Proof.
  intros _ _ _ _ _ _ Hrun. unfold rounded_rect in Hrun.
  pose proof (rounded_rect_rows_filled _ _ _ _ _ _ _ _ _ Hrun) as Hfilled.
  set (c := fun y => match row_fill y0 y1 ft fb y with
                     | Ok p => p
                     | Raise _ => RGBA 0 0 0 0
                     end).
  assert (Hc : Forall (fun y => row_fill y0 y1 ft fb y = Ok (c y)) (Py.range y0 y1)).
  { eapply Forall_impl; [exact Hfilled |]. intros y [p Hp]. unfold c.
    now rewrite Hp. }
  destruct (rounded_rect_rows_spec c x0 y0 x1 y1 ft fb _ Hc im)
    as (im2 & Hrun2 & Hsize & Hpix).
  rewrite Hrun in Hrun2. injection Hrun2 as <-.
  split; [exact Hsize |]. intros x y. rewrite Hpix.
  destruct (in_bounds im x y); cbn [andb]; [| reflexivity].
  destruct (decide (y0 <= y < y1)) as [Hy | Hy].
  - rewrite bool_decide_eq_true_2 by (apply elem_of_range; exact Hy).
    replace (y0 <=? y) with true by (symmetry; apply Z.leb_le; lia).
    replace (y <? y1) with true by (symmetry; apply Z.ltb_lt; lia).
    cbn [andb].
    destruct ((Z.min x0 x1 <=? x) && (x <=? Z.max x0 x1)); [| reflexivity].
    assert (Hrow : row_fill y0 y1 ft fb y = Ok (c y)).
    { rewrite Forall_forall in Hc. apply Hc, elem_of_range. exact Hy. }
    split; [exact Hrow | exact (row_fill_opaque _ _ _ _ _ _ Hrow)].
  - rewrite bool_decide_eq_false_2 by (rewrite elem_of_range; exact Hy).
    cbn [andb].
    destruct ((y0 <=? y) && (y <? y1)) eqn:Hb; [| reflexivity].
    bools. lia.
Qed.

Lemma rounded_rect_frame_witness :
  exists im',
    @rounded_rect reference_pillow (Image_new (4, 4) (RGBA 0 0 0 0))
      (1, 1, 2, 3) 0 (10, 20, 30) (50, 60, 70) = Ok im' /\
    size_of im' = (4, 4) /\
    pixel im' 2 2 = RGBA 30 40 50 255 /\
    pixel im' 2 3 = RGBA 0 0 0 0 /\
    pixel im' 3 2 = RGBA 0 0 0 0.
Proof.
  destruct (@rounded_rect reference_pillow (Image_new (4, 4) (RGBA 0 0 0 0))
              (1, 1, 2, 3) 0 (10, 20, 30) (50, 60, 70)) as [im' | e] eqn:E;
    [| vm_compute in E; discriminate E].
  exists im'. split; [reflexivity |].
  destruct (@rounded_rect_frame reference_pillow
              (Image_new (4, 4) (RGBA 0 0 0 0)) im' 1 1 2 3 0
              (10, 20, 30) (50, 60, 70)) as [Hsize Hpix];
    [cbn; lia | cbn; lia | unfold int32; lia .. | exact E |].
  split; [exact Hsize |].
  pose proof (Hpix 2 2) as H22. pose proof (Hpix 2 3) as H23.
  pose proof (Hpix 3 2) as H32.
  vm_compute in H22, H23, H32. destruct H22 as [H22 _].
  injection H22 as H22.
  split; [symmetry; exact H22 | split; [exact H23 | exact H32]].
Defined.

(** ** The first row of a gradient *)

(** In the first row [t] is [0 / (y1 - y0)], the float zero. *)
Lemma int_truediv_zero (h : Z) : 0 < h -> Py.int_truediv 0 h = Ok (S754_zero false).
Proof.
  intros Hh. unfold Py.int_truediv. destruct h as [| p | p]; try lia.
  reflexivity.
Qed.

(** With [t = 0.0] the product [t * (bottom - top)] is a zero, and adding a
    zero to an 8-bit top value gives the value back.  Checked value by
    value. *)
Lemma float_mul_int_zero :
  Forall (fun d => Py.float_mul_int (S754_zero false) d = Ok (S754_zero (d <? 0)))
         (Py.range (-255) 256).
Proof.
  refine (bool_decide_unpack _ _). vm_compute. exact I.
Qed.

Lemma int_add_float_zero :
  Forall (fun top =>
            Forall (fun s => Py.int_add_float top (S754_zero s)
                             ≫= Py.int_of_float = Ok top)
                   [false; true])
         (Py.range 0 256).
Proof.
  refine (bool_decide_unpack _ _). vm_compute. exact I.
Qed.

Lemma gradient_channel_top (top bottom : Z) :
  0 <= top <= 255 -> 0 <= bottom <= 255 ->
  gradient_channel top bottom (S754_zero false) = Ok top.
Proof.
  intros Ht Hb. unfold gradient_channel.
  pose proof float_mul_int_zero as Hmul. rewrite Forall_forall in Hmul.
  rewrite (Hmul (bottom - top)) by (apply elem_of_range; lia).
  cbn [mbind result_bind].
  pose proof int_add_float_zero as Hadd. rewrite Forall_forall in Hadd.
  specialize (Hadd top). rewrite Forall_forall in Hadd.
  apply (Hadd ltac:(apply elem_of_range; lia) (bottom - top <? 0)).
  destruct (bottom - top <? 0);
    [apply list_elem_of_further, list_elem_of_here | apply list_elem_of_here].
Qed.

(** X3.  Whatever the rectangle, as long as it has a row ([y0 < y1]), and
    whatever the two colours, as long as their channels are 8-bit values,
    the fill computed for the first row [y0] is exactly the top colour, with
    alpha 255: there [t] is [0.0], and the float arithmetic of lines 15 to 17
    gives back the top channel unchanged. *)
Theorem gradient_first_row_is_fill_top (y0 y1 tr tg tb br bg bb : Z) :
  y0 < y1 ->
  0 <= tr <= 255 -> 0 <= tg <= 255 -> 0 <= tb <= 255 ->
  0 <= br <= 255 -> 0 <= bg <= 255 -> 0 <= bb <= 255 ->
  row_fill y0 y1 (tr, tg, tb) (br, bg, bb) y0 = Ok (RGBA tr tg tb 255).
Proof.
  intros Hy Htr Htg Htb Hbr Hbg Hbb. unfold row_fill.
  rewrite Z.sub_diag, int_truediv_zero by lia.
  cbn [mbind result_bind].
  rewrite !gradient_channel_top by assumption. reflexivity.
Qed.

Lemma gradient_first_row_is_fill_top_witness :
  row_fill 5 9 (10, 20, 30) (200, 100, 0) 5 = Ok (RGBA 10 20 30 255).
Proof.
  apply (gradient_first_row_is_fill_top 5 9 10 20 30 200 100 0); lia.
Defined.

(** ** The script's gradient, row after row *)

(** From a row to the next each channel of the exact gradient stays or
    drops by one, within the two end colours.  Checked row by row. *)
Lemma gradient_pixel_steps :
  forallb (fun y => within_one_step (gradient_pixel y) (gradient_pixel (y + 1)))
          (Py.range 0 1023) = true.
Proof. vm_compute. reflexivity. Qed.

(** X4.  The background is a smooth ramp in all three channels: in any
    column, from one row to the next, red, green and blue each stay or drop
    by exactly one level, never more, and never grow; all values lie between
    the two end colours.  Row 0 holds the top colour (60, 130, 246) and the
    last row, 1023, holds the bottom colour (37, 78, 192). *)
Theorem background_steps_by_at_most_one `{Pillow} (x y : Z) :
  0 <= x < 1024 -> 0 <= y < 1023 ->
  returns img_gradient (fun g =>
    (red (pixel g x y) - 1 <= red (pixel g x (y + 1)) <= red (pixel g x y) /\
     green (pixel g x y) - 1 <= green (pixel g x (y + 1)) <= green (pixel g x y) /\
     blue (pixel g x y) - 1 <= blue (pixel g x (y + 1)) <= blue (pixel g x y)) /\
    (37 <= red (pixel g x (y + 1)) /\ red (pixel g x y) <= 60) /\
    (78 <= green (pixel g x (y + 1)) /\ green (pixel g x y) <= 130) /\
    (192 <= blue (pixel g x (y + 1)) /\ blue (pixel g x y) <= 246) /\
    pixel g x 0 = RGBA 60 130 246 255 /\
    pixel g x 1023 = RGBA 37 78 192 255).
Proof.
  intros Hx Hy.
  destruct img_gradient_spec as (g & Hrun & _ & Hpix).
  exists g. split; [exact Hrun |].
  rewrite !Hpix by (unfold size; lia).
  pose proof gradient_pixel_steps as Hall. rewrite forallb_forall in Hall.
  specialize (Hall y). unfold within_one_step in Hall.
  assert (Hin : In y (Py.range 0 1023))
    by (apply list_elem_of_In, elem_of_range; lia).
  specialize (Hall Hin). bools.
  repeat split; first [assumption | reflexivity].
Qed.

Lemma background_steps_by_at_most_one_witness :
  returns (@img_gradient reference_pillow) (fun g =>
    red (pixel g 3 500) - 1 <= red (pixel g 3 501) <= red (pixel g 3 500) /\
    pixel g 3 0 = RGBA 60 130 246 255 /\
    pixel g 3 1023 = RGBA 37 78 192 255).
Proof.
  destruct (@background_steps_by_at_most_one reference_pillow 3 500)
    as (g & Hrun & (Hred & _) & _ & _ & _ & Htop & Hlast); [lia | lia |].
  exists g. exact (conj Hrun (conj Hred (conj Htop Hlast))).
Defined.

(** ** The glyphs and the page *)

Section Page.
Context `{Pillow}.

(** Shapes that do not cover a pixel leave it as it was, inside the image
    or not. *)
Lemma fold_paint_uncovered (gs : list ((Z -> Z -> bool) * rgba)) (x y : Z) :
  Forall (fun g => fst g x y = false) gs ->
  forall im : Image rgba,
    pixel (fold_left (fun im g => paint im (fst g) (snd g)) gs im) x y = pixel im x y.
Proof.
  induction 1 as [| g gs Hg _ IH]; intros im; [reflexivity |].
  cbn [fold_left]. rewrite IH. cbn [pixel paint].
  rewrite Hg, andb_false_r. reflexivity.
Qed.

Lemma outside_document_uncovered (x y : Z) :
  ~ (280 <= x <= 744 /\ 160 <= y <= 864) ->
  Forall (fun g : (Z -> Z -> bool) * rgba => fst g x y = false) glyphs.
Proof.
  intros Hout. apply Forall_forall. intros g Hin.
  destruct (fst g x y) eqn:Hg; [| reflexivity].
  exfalso. apply Hout. exact (glyph_in_document g x y Hin Hg).
Qed.

End Page.

(** X5.  The nine glyph calls change nothing outside the bounding box of the
    page, columns 280 to 744 and rows 160 to 864: there the master image is
    the clipped gradient, pixel for pixel.  So every pixel of the canvas
    outside that box holds the gradient colour of its row, with alpha 255
    inside the clip region and 0 outside it; the transparent corners keep
    the gradient's colour under their alpha 0. *)
Theorem glyphs_stay_in_page_box `{Pillow} :
  returns img_clipped (fun c =>
    returns img_master (fun m =>
      size_of m = size_of c /\
      (forall x y, ~ (280 <= x <= 744 /\ 160 <= y <= 864) ->
         pixel m x y = pixel c x y) /\
      (forall x y, 0 <= x < 1024 -> 0 <= y < 1024 ->
         ~ (280 <= x <= 744 /\ 160 <= y <= 864) ->
         pixel m x y
         = RGBA (exact_channel 60 37 y) (exact_channel 130 78 y)
                (exact_channel 246 192 y)
                (if rounded_rectangle_covers (0, 0) (1023, 1023) 220 x y
                 then 255 else 0)))).
Proof.
  destruct img_clipped_spec as (c & Hrun & Hsize & Hpix).
  exists c. split; [exact Hrun |].
  unfold img_master. rewrite Hrun. cbn [mbind result_bind].
  eexists. split; [reflexivity |]. rewrite draw_glyphs_fold.
  split; [apply fold_paint_size |].
  assert (Hframe : forall x y, ~ (280 <= x <= 744 /\ 160 <= y <= 864) ->
            pixel (fold_left (fun im g => paint im (fst g) (snd g)) glyphs c) x y
            = pixel c x y).
  { intros x y Hout. apply fold_paint_uncovered, outside_document_uncovered, Hout. }
  split; [exact Hframe |].
  intros x y Hx Hy Hout. rewrite (Hframe x y Hout).
  apply Hpix; unfold size; lia.
Qed.

(* ===================================================================== *)
(** * Further properties: how a run can fail                              *)
(* ===================================================================== *)

(** X6.  The rendering always returns: neither the arithmetic of the
    gradient nor the size check of [putalpha] can end a run.  So a run that
    ends with an exception got it from [os.makedirs] (line 90), or, with the
    destination in place, from the save of the master file (line 91), or from
    the save of the derivative (line 95) once the master was written. *)
Theorem failure_comes_from_makedirs_or_save `{Pillow} (w w' : world) (e : exn) :
  main w = (Raise e, w') ->
  exists m,
    img_master = Ok m /\
    (makedirs output_dir true w = (Raise e, w') \/
     exists w1,
       makedirs output_dir true w = (Ok tt, w1) /\
       isdir (fs w1) output_path = true /\
       (write_file master_path (png_encode m) w1 = (Raise e, w') \/
        write_file derivative_path (png_encode (img_512_of m))
          (mkWorld (put (fs w1) master_path (File true (png_encode m)))
             (calls w1 ++ [SysWrite master_path (png_encode m)]))
        = (Raise e, w'))).
Proof.
  intros Hrun. destruct img_master_spec as (m & Hm & _).
  exists m. split; [exact Hm |].
  rewrite (main_run m w Hm) in Hrun. rewrite !makedirs_output_dir.
  destruct (makedirs_rev (rev output_path) true w) as [r1 w1] eqn:Hmk.
  destruct r1 as [[] | e1]; [right | left; exact Hrun].
  destruct (makedirs_rev_effect _ _ _ _ _ Hmk) as (ds & _ & _ & Hdir).
  rewrite rev_involutive in Hdir. specialize (Hdir eq_refl).
  exists w1. split; [reflexivity |]. split; [exact Hdir |].
  destruct (write_file_cases master_path (png_encode m) w1)
    as [(_ & _ & Heq) | (_ & e2 & Heq)]; rewrite Heq in Hrun |- *;
    [right | left; exact Hrun].
  match type of Hrun with
  | context [write_file derivative_path ?d ?w2] =>
      destruct (write_file_cases derivative_path d w2)
        as [(_ & _ & Heq2) | (_ & e3 & Heq2)]; rewrite Heq2 in Hrun |- *
  end; [discriminate Hrun | exact Hrun].
Qed.

Lemma failure_comes_from_makedirs_or_save_witness :
  exists e w' m,
    @main reference_pillow readonly_world = (Raise e, w') /\
    @img_master reference_pillow = Ok m.
Proof.
  destruct (@readonly_world_run reference_pillow) as (m0 & e & _ & Hrun).
  destruct (@failure_comes_from_makedirs_or_save reference_pillow _ _ _ Hrun)
    as (m & Hm & _).
  exists e. eexists. exists m. exact (conj Hrun Hm).
Defined.

(* ===================================================================== *)
(** * Further properties: what a run leaves behind                        *)
(* ===================================================================== *)

Lemma mkdirs_print_nothing (ds : list path) (s : string) :
  ~ In (SysPrint s) (map SysMkdir ds).
Proof. intros Hin. apply in_map_iff in Hin as (d & Hd & _). discriminate Hd. Qed.

(** What was there before [created] is there after, unchanged. *)
Lemma created_keeps (w w1 : world) (ds : list path) (p : path) (n : node) :
  created w w1 ds -> node_at (fs w) p = Some n -> node_at (fs w1) p = Some n.
Proof.
  intros (_ & _ & Hn & Hfree) Hp. rewrite Hn.
  rewrite bool_decide_eq_false_2; [exact Hp |].
  intros Hin. rewrite Forall_forall in Hfree.
  destruct (Hfree p Hin) as [Hnone _]. congruence.
Qed.

(** Writing a file at a writable target keeps every node, and rewrites at
    most the target. *)
Lemma write_keeps (t : filesystem) (q : path) (data : list Byte.byte)
    (p : path) (n : node) :
  writable_target t q -> q <> [] -> node_at t p = Some n ->
  exists n', node_at (put t q (File true data)) p = Some n' /\
             (n' = n \/ (p = q /\ exists old, n = File true old /\ n' = File true data)).
Proof.
  intros Hq Hne Hp. rewrite (node_at_put t q p _ Hne).
  destruct (decide (p = q)) as [-> | Hpq]; [| eauto].
  eexists. split; [reflexivity |]. right. split; [reflexivity |].
  destruct Hq as [[old Hold] | [Hnone _]]; [| congruence].
  exists old. split; [congruence | reflexivity].
Qed.

Section Leftovers.
Context `{Pillow}.

(** The calls of a run, whatever its outcome. *)
Lemma main_calls (w w' : world) (r : result unit) :
  main w = (r, w') ->
  exists m ds,
    img_master = Ok m /\
    ((r <> Ok tt /\
      (calls w' = calls w ++ map SysMkdir ds \/
       calls w' = calls w ++ map SysMkdir ds
                  ++ [SysWrite master_path (png_encode m)])) \/
     (r = Ok tt /\
      calls w' = calls w ++ map SysMkdir ds
                 ++ [SysWrite master_path (png_encode m);
                     SysWrite derivative_path (png_encode (img_512_of m))]
                 ++ [SysPrint "Icon generated successfully!"])).
Proof.
  intros Hrun. destruct img_master_spec as (m & Hm & _).
  pose proof (main_outcome m w _ _ Hm Hrun) as Hout.
  inversion Hout; subst;
    match goal with
    | Hcr : created w _ ?ds |- _ =>
        destruct Hcr as (Hc & _); exists m, ds
    end; (split; [exact Hm |]); cbn [calls].
  - left. split; [discriminate | left; exact Hc].
  - left. split; [discriminate | left; exact Hc].
  - left. split; [discriminate | right]. rewrite Hc, <- app_assoc. reflexivity.
  - right. split; [reflexivity |]. rewrite Hc, <- !app_assoc. reflexivity.
Qed.

(** The nodes of the tree after a run, whatever its outcome. *)
Lemma main_keeps (w w' : world) (r : result unit) (p : path) (n : node) :
  main w = (r, w') -> node_at (fs w) p = Some n ->
  exists n', node_at (fs w') p = Some n' /\ kept_or_rewritten p n n'.
Proof.
  intros Hrun Hp. destruct img_master_spec as (m & Hm & _).
  pose proof (main_outcome m w _ _ Hm Hrun) as Hout.
  assert (Hstep : forall t q data n1,
            writable_target t q -> q <> [] -> (q = master_path \/ q = derivative_path) ->
            node_at t p = Some n1 -> kept_or_rewritten p n n1 ->
            exists n', node_at (put t q (File true data)) p = Some n' /\
                       kept_or_rewritten p n n').
  { intros t q data n1 Hq Hne Hwhich Hn1 Hrel1.
    destruct (write_keeps t q data p n1 Hq Hne Hn1) as (n2 & Hn2 & Hrel2).
    exists n2. split; [exact Hn2 |].
    destruct Hrel2 as [-> | (Heq & old & Hold & Hnew)]; [exact Hrel1 |].
    right. split; [rewrite Heq; exact Hwhich |].
    destruct Hrel1 as [<- | (_ & old0 & new0 & Hold0 & Hnew0)]; [eauto |].
    exists old0, data. split; [exact Hold0 | exact Hnew]. }
  inversion Hout; subst; cbn [fs];
    match goal with
    | Hcr : created w _ _ |- _ =>
        pose proof (created_keeps _ _ _ p n Hcr Hp) as Hp1
    end.
  - exists n. split; [exact Hp1 | left; reflexivity].
  - exists n. split; [exact Hp1 | left; reflexivity].
  - match goal with
    | Hw1 : writable_target _ master_path |- _ =>
        exact (Hstep _ master_path _ n Hw1 master_path_nonempty
                 (or_introl eq_refl) Hp1 (or_introl eq_refl))
    end.
  - match goal with
    | Hw1 : writable_target _ master_path,
      Hw2 : writable_target _ derivative_path |- _ =>
        destruct (Hstep _ master_path (png_encode m) n Hw1 master_path_nonempty
                    (or_introl eq_refl) Hp1 (or_introl eq_refl))
          as (n1 & Hn1 & Hrel1);
        exact (Hstep _ derivative_path _ n1 Hw2 derivative_path_nonempty
                 (or_intror eq_refl) Hn1 Hrel1)
    end.
Qed.

End Leftovers.

(** X7.  The line [Icon generated successfully!] is printed by the runs that
    complete and by no other: if a run ends with an exception it has printed
    nothing, and if it completes the message is its last call, made once,
    after the two files were written. *)
Theorem success_message_only_when_completed `{Pillow} (w w' : world)
    (r : result unit) :
  main w = (r, w') ->
  exists cs,
    calls w' = calls w ++ cs /\
    (r <> Ok tt -> forall s, ~ In (SysPrint s) cs) /\
    (r = Ok tt ->
     exists cs0,
       cs = cs0 ++ [SysPrint "Icon generated successfully!"] /\
       (forall s, ~ In (SysPrint s) cs0) /\
       writes_to master_path cs0 /\ writes_to derivative_path cs0).
Proof.
  intros Hrun.
  destruct (main_calls w w' r Hrun)
    as (m & ds & _ & [[Hr [Hc | Hc]] | [Hr Hc]]).
  - exists (map SysMkdir ds). split; [exact Hc |].
    split; [| intros Hok; exact (False_ind _ (Hr Hok))].
    intros _ s. apply mkdirs_print_nothing.
  - exists (map SysMkdir ds ++ [SysWrite master_path (png_encode m)]).
    split; [exact Hc |].
    split; [| intros Hok; exact (False_ind _ (Hr Hok))].
    intros _ s Hin. apply in_app_or in Hin as [Hin | [Hin | []]].
    + exact (mkdirs_print_nothing _ _ Hin).
    + discriminate Hin.
  - eexists. split; [exact Hc |].
    split; [intros Hno; exact (False_ind _ (Hno Hr)) |].
    intros _.
    exists (map SysMkdir ds
            ++ [SysWrite master_path (png_encode m);
                SysWrite derivative_path (png_encode (img_512_of m))]).
    split; [now rewrite <- app_assoc |]. split; [| split].
    + intros s Hin. apply in_app_or in Hin as [Hin | [Hin | [Hin | []]]].
      * exact (mkdirs_print_nothing _ _ Hin).
      * discriminate Hin.
      * discriminate Hin.
    + exists (png_encode m). apply in_or_app. right. left. reflexivity.
    + exists (png_encode (img_512_of m)). apply in_or_app. right. right. left.
      reflexivity.
Qed.

Lemma success_message_only_when_completed_witness :
  exists w' cs0,
    @main reference_pillow fresh_world = (Ok tt, w') /\
    calls w' = calls fresh_world
               ++ cs0 ++ [SysPrint "Icon generated successfully!"] /\
    (forall s, ~ In (SysPrint s) cs0).
Proof.
  destruct (@fresh_world_completes reference_pillow) as [w' Hrun].
  destruct (@success_message_only_when_completed reference_pillow _ _ _ Hrun)
    as (cs & Hc & _ & Hok).
  destruct (Hok eq_refl) as (cs0 & -> & Hnone & _).
  exists w', cs0. exact (conj Hrun (conj Hc Hnone)).
Defined.

(** X8.  A run deletes nothing and changes nothing but the two output
    files, whether it completes or fails: every directory and file that was
    in the tree before is there after, with the same permission and the same
    content, except that a writable file at one of the two output paths may
    have been rewritten. *)
Theorem run_keeps_what_was_there `{Pillow} (w w' : world) (r : result unit)
    (p : path) (n : node) :
  main w = (r, w') -> node_at (fs w) p = Some n ->
  exists n',
    node_at (fs w') p = Some n' /\
    kept_or_rewritten p n n' /\
    (p <> master_path -> p <> derivative_path -> n' = n) /\
    (forall b, n = Dir b -> n' = n).
Proof.
  intros Hrun Hp.
  destruct (main_keeps w w' r p n Hrun Hp) as (n' & Hn' & Hrel).
  exists n'. split; [exact Hn' |]. split; [exact Hrel |]. split.
  - intros Hm Hd. destruct Hrel as [-> | [[Heq | Heq] _]];
      [reflexivity | exact (False_ind _ (Hm Heq)) | exact (False_ind _ (Hd Heq))].
  - intros b ->. destruct Hrel as [-> | [_ (old & new & Hold & _)]];
      [reflexivity | discriminate Hold].
Qed.

Lemma run_keeps_what_was_there_witness :
  exists w' n',
    @main reference_pillow rerun_world = (Ok tt, w') /\
    node_at (fs rerun_world) master_path = Some (File true [Byte.x00]) /\
    node_at (fs w') master_path = Some n' /\
    kept_or_rewritten master_path (File true [Byte.x00]) n'.
Proof.
  destruct (@rerun_world_completes reference_pillow) as [w' Hrun].
  assert (Hp : node_at (fs rerun_world) master_path = Some (File true [Byte.x00]))
    by (vm_compute; reflexivity).
  destruct (@run_keeps_what_was_there reference_pillow _ _ _ _ _ Hrun Hp)
    as (n' & Hn' & Hrel & _).
  exists w', n'. exact (conj Hrun (conj Hp (conj Hn' Hrel))).
Defined.

(* ===================================================================== *)
(** * Further properties: running the script again                        *)
(* ===================================================================== *)

(** ** The file tree stays a tree *)

Lemma parent_not_self (p : path) : p <> [] -> parent p <> p.
Proof.
  intros Hne Heq. apply (f_equal length) in Heq.
  destruct p as [| c p] using rev_ind; [congruence |].
  rewrite parent_snoc, length_app in Heq. cbn in Heq. lia.
Qed.

(** A new node under a directory. *)
Lemma tree_shaped_put_new (t : filesystem) (p : path) (n : node) :
  tree_shaped t -> node_at t p = None -> isdir t (parent p) = true ->
  tree_shaped (put t p n).
Proof.
  intros Htree Hnone Hpar q nq Hq Hnq.
  assert (Hne : p <> []) by (intros ->; discriminate).
  unfold isdir. rewrite (node_at_put t p q n Hne) in Hnq.
  rewrite (node_at_put t p (parent q) n Hne).
  destruct (decide (q = p)) as [-> | Hqp].
  - rewrite decide_False by (apply parent_not_self; exact Hne). exact Hpar.
  - rewrite decide_False in Hnq by exact Hqp.
    pose proof (Htree q nq Hq Hnq) as Hd.
    destruct (decide (parent q = p)) as [Heq | _]; [| exact Hd].
    rewrite Heq in Hd. apply isdir_true in Hd as [b Hb]. congruence.
Qed.

(** A file in the place of a file. *)
Lemma tree_shaped_put_file (t : filesystem) (p : path) (b b' : bool)
    (old data : list Byte.byte) :
  tree_shaped t -> node_at t p = Some (File b old) ->
  tree_shaped (put t p (File b' data)).
Proof.
  intros Htree Hold q nq Hq Hnq.
  assert (Hne : p <> []) by (intros ->; discriminate).
  unfold isdir. rewrite (node_at_put t p q _ Hne) in Hnq.
  rewrite (node_at_put t p (parent q) _ Hne).
  assert (Hd : isdir t (parent q) = true).
  { destruct (decide (q = p)) as [-> | Hqp]; [exact (Htree p _ Hne Hold) |].
    rewrite decide_False in Hnq by exact Hqp. exact (Htree q nq Hq Hnq). }
  destruct (decide (parent q = p)) as [Heq | _]; [| exact Hd].
  rewrite Heq in Hd. apply isdir_true in Hd as [b0 Hb]. congruence.
Qed.

Lemma mkdir_exist_ok_tree (name : path) (exist_ok : bool) (w : world) r w' :
  mkdir_exist_ok name exist_ok w = (r, w') ->
  tree_shaped (fs w) -> tree_shaped (fs w').
Proof.
  unfold mkdir_exist_ok, try_except, mkdir, mkdir_fs.
  destruct (node_at (fs w) name) as [n |] eqn:Hn.
  - destruct (negb exist_ok || negb (isdir (fs w) name));
      intros [= <- <-]; auto.
  - destruct (node_at (fs w) (parent name)) as [[[|] | b d] |] eqn:Hpar;
      try (destruct (negb exist_ok || negb (isdir (fs w) name));
           intros [= <- <-]; auto; fail).
    intros [= <- <-] Htree. cbn [fs].
    apply tree_shaped_put_new; [exact Htree | exact Hn |].
    unfold isdir. now rewrite Hpar.
Qed.

Lemma makedirs_rev_tree (rev_name : path) (exist_ok : bool) :
  forall w r w',
    makedirs_rev rev_name exist_ok w = (r, w') ->
    tree_shaped (fs w) -> tree_shaped (fs w').
Proof.
  induction rev_name as [| c rev_head IH]; intros w r w' Hrun Htree.
  - rewrite makedirs_rev_nil in Hrun.
    destruct exist_ok; injection Hrun as <- <-; exact Htree.
  - rewrite makedirs_rev_cons in Hrun. cbn zeta in Hrun.
    destruct (exists_ (fs w) (rev rev_head)).
    + exact (mkdir_exist_ok_tree _ _ _ _ _ Hrun Htree).
    + destruct (makedirs_rev rev_head exist_ok w) as [r1 w1] eqn:Hrec.
      pose proof (IH _ _ _ Hrec Htree) as Htree1.
      destruct r1 as [[] | e];
        [exact (mkdir_exist_ok_tree _ _ _ _ _ Hrun Htree1) |].
      destruct e;
        first [ exact (mkdir_exist_ok_tree _ _ _ _ _ Hrun Htree1)
              | injection Hrun as <- <-; exact Htree1 ].
Qed.

Lemma write_file_tree (p : path) (data : list Byte.byte) (w : world) r w' :
  write_file p data w = (r, w') ->
  tree_shaped (fs w) -> tree_shaped (fs w').
Proof.
  unfold write_file, write_fs.
  destruct (node_at (fs w) p) as [[b | [|] old] |] eqn:Hn;
    try (intros [= <- <-]; auto; fail).
  - intros [= <- <-] Htree. cbn [fs]. eapply tree_shaped_put_file; eauto.
  - destruct (node_at (fs w) (parent p)) as [[[|] | b d] |] eqn:Hpar;
      try (intros [= <- <-]; auto; fail).
    intros [= <- <-] Htree. cbn [fs].
    apply tree_shaped_put_new; [exact Htree | exact Hn |].
    unfold isdir. now rewrite Hpar.
Qed.

(** Writing again what a file holds changes nothing. *)
Lemma put_same (t : filesystem) (p : path) (n : node) :
  p <> [] -> node_at t p = Some n -> put t p n = t.
Proof.
  intros Hne Hp. destruct t as [rw ns]. unfold put, node_at in *.
  cbn [nodes root_writable] in *. f_equal.
  destruct p as [| c p]; [congruence |]. now apply insert_id.
Qed.

Section Rerun.
Context `{Pillow}.

(** Whatever the outcome, a run leaves the file tree a tree. *)
Lemma main_tree (w w' : world) (r : result unit) :
  main w = (r, w') -> tree_shaped (fs w) -> tree_shaped (fs w').
Proof.
  intros Hrun Htree. destruct img_master_spec as (m & Hm & _).
  rewrite (main_run m w Hm) in Hrun.
  destruct (makedirs_rev (rev output_path) true w) as [r1 w1] eqn:Hmk.
  pose proof (makedirs_rev_tree _ _ _ _ _ Hmk Htree) as Htree1.
  destruct r1 as [[] | e1]; [| injection Hrun as <- <-; exact Htree1].
  destruct (write_file master_path (png_encode m) w1) as [r2 w2] eqn:Hw1.
  pose proof (write_file_tree _ _ _ _ _ Hw1 Htree1) as Htree2.
  destruct r2 as [[] | e2]; [| injection Hrun as <- <-; exact Htree2].
  destruct (write_file derivative_path (png_encode (img_512_of m)) w2)
    as [r3 w3] eqn:Hw2.
  pose proof (write_file_tree _ _ _ _ _ Hw2 Htree2) as Htree3.
  destruct r3 as [[] | e3]; [| injection Hrun as <- <-; exact Htree3].
  unfold print in Hrun. injection Hrun as _ <-. exact Htree3.
Qed.

(** After a completed run the destination is a directory. *)
Lemma main_ok_dir (w w' : world) :
  main w = (Ok tt, w') -> isdir (fs w') output_path = true.
Proof.
  intros Hrun.
  destruct (main_ok_spec w w' Hrun) as (m & ds & w1 & _ & _ & _ & _ & Hdir & ->).
  cbn [fs]. unfold isdir.
  rewrite (node_at_final_other (fs w1) _ _ output_path
             output_not_master output_not_derivative).
  exact Hdir.
Qed.

(** A run on a tree that holds the destination and both files, writable:
    nothing is made, the two files are written, the message is printed. *)
Lemma main_on_existing (m : Image rgba) (w : world) (old1 old2 : list Byte.byte) :
  img_master = Ok m -> tree_shaped (fs w) ->
  isdir (fs w) output_path = true ->
  node_at (fs w) master_path = Some (File true old1) ->
  node_at (fs w) derivative_path = Some (File true old2) ->
  main w
  = (Ok tt,
     mkWorld
       (put (put (fs w) master_path (File true (png_encode m)))
          derivative_path (File true (png_encode (img_512_of m))))
       (calls w ++
        [SysWrite master_path (png_encode m);
         SysWrite derivative_path (png_encode (img_512_of m));
         SysPrint "Icon generated successfully!"])).
Proof.
  intros Hm Htree Hdir Hf1 Hf2.
  rewrite (main_run m w Hm).
  rewrite (makedirs_existing output_path w Htree Hdir).
  destruct (write_file_cases master_path (png_encode m) w)
    as [(_ & _ & ->) | (Hno & _)];
    [| exact (False_ind _ (Hno (or_introl (ex_intro _ old1 Hf1))))].
  match goal with
  | |- context [write_file derivative_path ?d ?w2] =>
      destruct (write_file_cases derivative_path d w2)
        as [(_ & _ & ->) | (Hno & _)]
  end.
  - unfold print. cbn [fs calls]. rewrite <- !app_assoc. reflexivity.
  - exfalso. apply Hno. left. exists old2. cbn [fs].
    rewrite (node_at_put _ master_path derivative_path _ master_path_nonempty).
    rewrite (decide_False (P := derivative_path = master_path))
      by (intros Heq; exact (master_derivative_differ (eq_sym Heq))).
    exact Hf2.
Qed.

End Rerun.

(** X9.  The script can be run again: after a completed run on a
    well-formed file tree, a second run completes too.  It finds the
    destination in place and makes no directory; it writes the same two files
    with the same bytes and prints the message; and the file tree after it is
    exactly the tree the first run left. *)
Theorem second_run_changes_nothing `{Pillow} (w w' : world) :
  tree_shaped (fs w) -> main w = (Ok tt, w') ->
  exists m w'',
    img_master = Ok m /\
    main w' = (Ok tt, w'') /\
    fs w'' = fs w' /\
    calls w'' = calls w' ++
                [SysWrite master_path (png_encode m);
                 SysWrite derivative_path (png_encode (img_512_of m));
                 SysPrint "Icon generated successfully!"].
Proof.
  intros Htree Hrun.
  destruct img_master_spec as (m & Hm & _).
  destruct (main_ok_files m w w' Hm Hrun) as [Hf1 Hf2].
  pose proof (main_tree w w' _ Hrun Htree) as Htree'.
  pose proof (main_ok_dir w w' Hrun) as Hdir'.
  exists m. eexists. split; [exact Hm |].
  split; [exact (main_on_existing m w' _ _ Hm Htree' Hdir' Hf1 Hf2) |].
  cbn [fs calls]. split; [| reflexivity].
  rewrite (put_same (fs w') master_path _ master_path_nonempty Hf1).
  exact (put_same (fs w') derivative_path _ derivative_path_nonempty Hf2).
Qed.

Lemma second_run_changes_nothing_witness :
  exists w' w'',
    @main reference_pillow fresh_world = (Ok tt, w') /\
    @main reference_pillow w' = (Ok tt, w'') /\
    fs w'' = fs w'.
Proof.
  destruct (@fresh_world_completes reference_pillow) as [w' Hrun].
  destruct (@second_run_changes_nothing reference_pillow _ _ fresh_world_tree Hrun)
    as (m & w'' & _ & Hrun2 & Hfs & _).
  exists w', w''. exact (conj Hrun (conj Hrun2 Hfs)).
Defined.

(* ===================================================================== *)
(** * Further properties: failures that leave no trace                    *)
(* ===================================================================== *)

(** [os.makedirs] stopped by what it meets on the way: below the last
    existing component of the path, a read-only directory refuses the
    [mkdir] and a file cannot hold a directory.  Nothing is made. *)
Lemma makedirs_rev_blocked (rev_name : path) (k : nat) (e : exn) :
  forall w,
    tree_shaped (fs w) ->
    (k < length rev_name)%nat ->
    node_at (fs w) (take (S k) (rev rev_name)) = None ->
    (e = PermissionError /\
     node_at (fs w) (take k (rev rev_name)) = Some (Dir false)) \/
    (e = NotADirectoryError /\
     exists b d, node_at (fs w) (take k (rev rev_name)) = Some (File b d)) ->
    makedirs_rev rev_name true w = (Raise e, w).
Proof.
  induction rev_name as [| c rev_head IH]; intros w Htree Hk Hnone Hwhy;
    [cbn in Hk; lia |].
  cbn [rev length] in *. set (P := rev rev_head ++ [c]) in *.
  assert (Hlen : length (rev rev_head) = length rev_head) by apply length_rev.
  assert (HlenP : length P = S (length rev_head))
    by (unfold P; rewrite length_app; cbn; lia).
  assert (Htake : forall n, (n <= length rev_head)%nat ->
                    take n P = take n (rev rev_head)).
  { intros n Hn. unfold P. apply take_app_le. lia. }
  assert (Hhead : take (length rev_head) P = rev rev_head).
  { rewrite Htake by lia. apply take_ge. lia. }
  assert (HP : take (S (length rev_head)) P = P) by (apply take_ge; lia).
  rewrite makedirs_rev_cons. cbn zeta. fold P.
  destruct (decide (k = length rev_head)) as [-> | Hlt].
  - rewrite Hhead in Hwhy. rewrite HP in Hnone.
    assert (Hpar : parent P = rev rev_head) by (unfold P; apply parent_snoc).
    unfold exists_, mkdir_exist_ok, try_except, mkdir, mkdir_fs, isdir.
    rewrite Hpar.
    destruct Hwhy as [[-> Hro] | [-> (b & d & Hf)]].
    + rewrite Hro, Hnone. cbv beta iota. rewrite Hnone. reflexivity.
    + rewrite Hf, Hnone. cbv beta iota. rewrite Hnone. reflexivity.
  - assert (Hmissing : node_at (fs w) (rev rev_head) = None).
    { rewrite <- Hhead.
      apply (tree_shaped_below (fs w) P (S k)); [exact Htree | exact Hnone | lia]. }
    unfold exists_. rewrite Hmissing.
    rewrite (IH w Htree); [| lia | | ].
    + destruct Hwhy as [[-> _] | [-> _]]; reflexivity.
    + rewrite <- Htake by lia. exact Hnone.
    + rewrite <- Htake by lia. exact Hwhy.
Qed.

(** [os.makedirs] on a name taken by a file. *)
Lemma makedirs_rev_on_file (P : path) (w : world) (b : bool) (d : list Byte.byte) :
  tree_shaped (fs w) -> node_at (fs w) P = Some (File b d) ->
  makedirs_rev (rev P) true w = (Raise FileExistsError, w).
Proof.
  intros Htree Hf. destruct P as [| c P _] using rev_ind; [discriminate |].
  rewrite rev_app_distr. cbn [rev app]. rewrite makedirs_rev_cons. cbn zeta.
  rewrite rev_involutive.
  assert (Hpar : isdir (fs w) P = true).
  { rewrite <- (parent_snoc P c). eapply Htree; [| exact Hf].
    intros Heq. now apply app_eq_nil in Heq as [_ ?]. }
  rewrite (exists_of_isdir _ _ Hpar).
  unfold mkdir_exist_ok, try_except, mkdir, mkdir_fs, isdir.
  rewrite Hf. cbv beta iota. rewrite Hf. reflexivity.
Qed.

Section SilentFailures.
Context `{Pillow}.

Lemma main_makedirs_raised (w : world) (e : exn) :
  makedirs_rev (rev output_path) true w = (Raise e, w) ->
  main w = (Raise e, w).
Proof.
  intros Hmk. destruct img_master_spec as (m & Hm & _).
  rewrite (main_run m w Hm). rewrite Hmk. reflexivity.
Qed.

Lemma main_master_raised (w : world) (e : exn) :
  tree_shaped (fs w) -> isdir (fs w) output_path = true ->
  (forall data, write_file master_path data w = (Raise e, w)) ->
  main w = (Raise e, w).
Proof.
  intros Htree Hdir Hsave. destruct img_master_spec as (m & Hm & _).
  rewrite (main_run m w Hm).
  rewrite (makedirs_existing output_path w Htree Hdir).
  rewrite (Hsave (png_encode m)). reflexivity.
Qed.

End SilentFailures.

(** X10.  When [os.makedirs] cannot make the destination the run ends there
    and has changed nothing, neither the tree nor the trace.  On a
    well-formed tree: if a file has the destination's name the run raises
    [FileExistsError]; if the destination is missing and the deepest existing
    directory on its path is read-only it raises [PermissionError]; if a file
    sits on the path where a directory is needed it raises
    [NotADirectoryError]. *)
Theorem makedirs_failure_changes_nothing `{Pillow} (w : world) :
  tree_shaped (fs w) ->
  ((exists b d, node_at (fs w) output_path = Some (File b d)) ->
   main w = (Raise FileExistsError, w)) /\
  (forall k,
     (k < length output_path)%nat ->
     node_at (fs w) (take (S k) output_path) = None ->
     (node_at (fs w) (take k output_path) = Some (Dir false) ->
      main w = (Raise PermissionError, w)) /\
     ((exists b d, node_at (fs w) (take k output_path) = Some (File b d)) ->
      main w = (Raise NotADirectoryError, w))).
Proof.
  intros Htree. split.
  - intros (b & d & Hf). apply main_makedirs_raised.
    exact (makedirs_rev_on_file output_path w b d Htree Hf).
  - intros k Hk Hnone.
    assert (Hk' : (k < length (rev output_path))%nat)
      by (rewrite length_rev; exact Hk).
    split; intros Hwhy; apply main_makedirs_raised;
      apply (makedirs_rev_blocked (rev output_path) k _ w Htree Hk');
      rewrite ?rev_involutive; auto.
Qed.

Lemma makedirs_failure_changes_nothing_witness :
  @main reference_pillow locked_world = (Raise PermissionError, locked_world).
Proof.
  destruct (@makedirs_failure_changes_nothing reference_pillow locked_world)
    as [_ Hblocked].
  - apply tree_shaped_decide. apply map_Forall_empty.
  - destruct (Hblocked 0%nat) as [Hro _].
    + rewrite output_path_length. lia.
    + vm_compute. reflexivity.
    + apply Hro. reflexivity.
Defined.

(** X11.  With the destination in place, a first save that cannot write its
    file ends the run before anything was changed: no directory made, no
    file written, nothing printed.  It raises [IsADirectoryError] if a
    directory has the master file's name, and [PermissionError] if the master
    file exists read-only or is missing from a read-only destination. *)
Theorem master_save_failure_changes_nothing `{Pillow} (w : world) :
  tree_shaped (fs w) -> isdir (fs w) output_path = true ->
  (isdir (fs w) master_path = true -> main w = (Raise IsADirectoryError, w)) /\
  ((exists d, node_at (fs w) master_path = Some (File false d)) ->
   main w = (Raise PermissionError, w)) /\
  (node_at (fs w) master_path = None ->
   node_at (fs w) output_path = Some (Dir false) ->
   main w = (Raise PermissionError, w)).
Proof.
  intros Htree Hdir. split; [| split].
  - intros [b Hb]%isdir_true. apply (main_master_raised w _ Htree Hdir).
    intros data. unfold write_file, write_fs. rewrite Hb. reflexivity.
  - intros [d Hd]. apply (main_master_raised w _ Htree Hdir).
    intros data. unfold write_file, write_fs. rewrite Hd. reflexivity.
  - intros Hnone Hro. apply (main_master_raised w _ Htree Hdir).
    intros data. unfold write_file, write_fs.
    rewrite Hnone, parent_master, Hro. reflexivity.
Qed.

Lemma squatted_world_tree : tree_shaped (fs squatted_world).
Proof.
  apply tree_shaped_decide. refine (bool_decide_unpack _ _).
  vm_compute. exact I.
Qed.

Lemma master_save_failure_changes_nothing_witness :
  @main reference_pillow squatted_world = (Raise IsADirectoryError, squatted_world).
Proof.
  destruct (@master_save_failure_changes_nothing reference_pillow squatted_world)
    as [Hdir _].
  - exact squatted_world_tree.
  - vm_compute. reflexivity.
  - apply Hdir. vm_compute. reflexivity.
Defined.

(* ===================================================================== *)
(** * Further properties: the directories a run makes                     *)
(* ===================================================================== *)

Lemma missing_dirs_prefixes (P : path) (k : nat) :
  Forall (fun d => d `prefix_of` P) (missing_dirs P k).
Proof.
  unfold missing_dirs. apply Forall_forall. intros d Hd.
  apply list_elem_of_fmap in Hd as (n & -> & _). apply prefix_take.
Qed.

Lemma missing_dirs_all (P : path) : missing_dirs P (length P) = [].
Proof. unfold missing_dirs. now rewrite Nat.sub_diag. Qed.

(** One more component at the end is one more directory at the end. *)
Lemma missing_dirs_snoc (P : path) (c : string) (k : nat) :
  (k <= length P)%nat ->
  missing_dirs (P ++ [c]) k = missing_dirs P k ++ [P ++ [c]].
Proof.
  intros Hk. unfold missing_dirs. rewrite length_app. cbn [length].
  replace (length P + 1 - k)%nat with (S (length P - k)) by lia.
  rewrite seq_S, map_app. cbn [map]. f_equal.
  - apply map_ext_in. intros n Hn. apply in_seq in Hn.
    apply take_app_le. lia.
  - f_equal. apply take_ge. rewrite length_app. cbn. lia.
Qed.

(** The guarded [mkdir] at a free name under a writable directory makes
    that directory. *)
Lemma mkdir_exist_ok_makes (name : path) (exist_ok : bool) (w : world) :
  node_at (fs w) name = None ->
  node_at (fs w) (parent name) = Some (Dir true) ->
  exists w', mkdir_exist_ok name exist_ok w = (Ok tt, w') /\ created w w' [name].
Proof.
  intros Hnone Hpar. unfold mkdir_exist_ok, try_except.
  destruct (mkdir_effect name w) as [(w' & Hrun & Hcr & _) | (e & _ & Hno)].
  - rewrite Hrun. eauto.
  - exact (False_ind _ (Hno Hnone Hpar)).
Qed.

(** [os.makedirs] on a ready path makes the missing directories, and makes
    them from the top down. *)
Lemma makedirs_rev_creates (rev_name : path) (k : nat) :
  forall w,
    path_ready (fs w) (rev rev_name) k ->
    exists w', makedirs_rev rev_name true w = (Ok tt, w') /\
               created w w' (missing_dirs (rev rev_name) k).
Proof.
  induction rev_name as [| c rev_head IH]; intros w (Hk & Hdirs & Hfree & Hwr).
  - rewrite makedirs_rev_nil. exists w. split; [reflexivity |].
    cbn in Hk. replace k with 0%nat by lia. apply created_refl.
  - cbn [rev] in *. rewrite length_app in *. cbn [length] in *.
    assert (Hlen : length (rev rev_head) = length rev_head) by apply length_rev.
    assert (Htake : forall n, (n <= length rev_head)%nat ->
                      take n (rev rev_head ++ [c]) = take n (rev rev_head)).
    { intros n Hn. apply take_app_le. lia. }
    assert (Hhead : take (length rev_head) (rev rev_head ++ [c]) = rev rev_head).
    { rewrite Htake by lia. apply take_ge. lia. }
    assert (HP : take (S (length rev_head)) (rev rev_head ++ [c])
                 = rev rev_head ++ [c]).
    { apply take_ge. rewrite length_app. cbn. lia. }
    rewrite makedirs_rev_cons. cbn zeta.
    destruct (decide (k = S (length rev_head))) as [-> | Hlt].
    + assert (H1 : isdir (fs w) (rev rev_head) = true)
        by (rewrite <- Hhead; apply Hdirs; lia).
      assert (H2 : isdir (fs w) (rev rev_head ++ [c]) = true)
        by (rewrite <- HP; apply Hdirs; lia).
      rewrite (exists_of_isdir _ _ H1), (mkdir_exist_ok_existing _ _ H2).
      exists w. split; [reflexivity |].
      replace (missing_dirs (rev rev_head ++ [c]) (S (length rev_head)))
        with (@nil path); [apply created_refl |].
      symmetry. rewrite <- (missing_dirs_all (rev rev_head ++ [c])).
      f_equal. rewrite length_app. cbn. lia.
    + assert (Hnew : node_at (fs w) (rev rev_head ++ [c]) = None)
        by (rewrite <- HP; apply Hfree; lia).
      rewrite missing_dirs_snoc by lia.
      destruct (decide (k = length rev_head)) as [-> | Hlt'].
      * assert (H1 : node_at (fs w) (rev rev_head) = Some (Dir true))
          by (rewrite <- Hhead; apply Hwr; lia).
        unfold exists_. rewrite H1.
        replace (missing_dirs (rev rev_head) (length rev_head)) with (@nil path)
          by (rewrite <- Hlen; symmetry; apply missing_dirs_all).
        cbn [app].
        apply mkdir_exist_ok_makes; [exact Hnew |].
        now rewrite parent_snoc.
      * assert (H1 : node_at (fs w) (rev rev_head) = None)
          by (rewrite <- Hhead; apply Hfree; lia).
        unfold exists_. rewrite H1.
        destruct (IH w) as (w1 & Hrec & Hcr1).
        { repeat split.
          - lia.
          - intros n Hn. rewrite <- Htake by lia. apply Hdirs. lia.
          - intros n Hn. rewrite <- Htake by lia. apply Hfree. lia.
          - intros _. rewrite <- Htake by lia. apply Hwr. lia. }
        rewrite Hrec.
        pose proof Hcr1 as (_ & _ & Hn & _).
        destruct (mkdir_exist_ok_makes (rev rev_head ++ [c]) true w1)
          as (w' & Hmk & Hcr2).
        -- rewrite Hn, bool_decide_eq_false_2; [exact Hnew |].
           intros Hin.
           pose proof (missing_dirs_prefixes (rev rev_head) k) as Hpre.
           rewrite Forall_forall in Hpre.
           apply Hpre, prefix_length in Hin.
           rewrite length_app in Hin. cbn in Hin. lia.
        -- rewrite parent_snoc, Hn, bool_decide_eq_true_2; [reflexivity |].
           unfold missing_dirs. apply list_elem_of_fmap.
           exists (length rev_head). split; [symmetry; apply take_ge; lia |].
           apply list_elem_of_In, in_seq. lia.
        -- exists w'. split; [exact Hmk |].
           exact (created_trans _ _ _ _ _ Hcr1 Hcr2).
Qed.

(** X12.  Where the destination is missing, [os.makedirs] makes every
    missing directory of its path and no other, each exactly once and parents
    first: with the first [k] components in place, the writable directory
    [take k] above the missing [take (k + 1)], the calls of the run are the
    [mkdir]s of [take (k + 1)], [take (k + 2)], ... up to the destination
    itself, in this order, then the two writes and the message. *)
Theorem missing_directories_made_parents_first `{Pillow} (w : world) (k : nat) :
  tree_shaped (fs w) ->
  (k < length output_path)%nat ->
  node_at (fs w) (take k output_path) = Some (Dir true) ->
  node_at (fs w) (take (S k) output_path) = None ->
  exists w' m,
    main w = (Ok tt, w') /\ img_master = Ok m /\
    calls w' = calls w
               ++ map SysMkdir
                    (map (fun n => take n output_path)
                       (seq (S k) (length output_path - k)))
               ++ [SysWrite master_path (png_encode m);
                   SysWrite derivative_path (png_encode (img_512_of m));
                   SysPrint "Icon generated successfully!"].
Proof.
  intros Htree Hk Hdir Hnone.
  pose proof (tree_shaped_ready_missing _ _ _ Htree Hk Hdir Hnone) as Hready.
  destruct img_master_spec as (m & Hm & _).
  rewrite <- (rev_involutive output_path) in Hready.
  destruct (makedirs_rev_creates _ _ _ Hready) as (w1 & Hmk & Hcr).
  rewrite rev_involutive in Hcr.
  destruct (makedirs_rev_effect _ _ _ _ _ Hmk) as (ds' & _ & _ & Hisdir).
  rewrite rev_involutive in Hisdir. specialize (Hisdir eq_refl).
  destruct (targets_when_missing w k Htree Hk Hnone w1 _ Hcr
              (missing_dirs_prefixes output_path k) Hisdir) as [Hw1 Hw2].
  destruct Hcr as (Hcalls & _).
  eexists. exists m.
  rewrite (main_run m w Hm). rewrite Hmk.
  destruct (write_file_cases master_path (png_encode m) w1)
    as [(_ & _ & ->) | (Hno & _)]; [| exact (False_ind _ (Hno Hw1))].
  match goal with
  | |- context [write_file derivative_path ?d ?w2] =>
      destruct (write_file_cases derivative_path d w2)
        as [(_ & _ & ->) | (Hno & _)]
  end; [| exact (False_ind _ (Hno (Hw2 _)))].
  unfold print. cbn [fs calls].
  split; [reflexivity |]. split; [exact Hm |].
  rewrite Hcalls. unfold missing_dirs. rewrite <- !app_assoc. reflexivity.
Qed.

Lemma missing_directories_made_parents_first_witness :
  exists w' m,
    @main reference_pillow fresh_world = (Ok tt, w') /\
    @img_master reference_pillow = Ok m /\
    calls w'
    = map SysMkdir
        [ ["Users"]; ["Users"; "kenefe"]; ["Users"; "kenefe"; "LOCAL"];
          ["Users"; "kenefe"; "LOCAL"; "momo-agent"];
          ["Users"; "kenefe"; "LOCAL"; "momo-agent"; "BrainDown"];
          ["Users"; "kenefe"; "LOCAL"; "momo-agent"; "BrainDown"; "Resources"];
          ["Users"; "kenefe"; "LOCAL"; "momo-agent"; "BrainDown"; "Resources";
           "Assets.xcassets"];
          ["Users"; "kenefe"; "LOCAL"; "momo-agent"; "BrainDown"; "Resources";
           "Assets.xcassets"; "AppIcon.appiconset"] ]%string
      ++ [SysWrite master_path (@png_encode reference_pillow m);
          SysWrite derivative_path
            (@png_encode reference_pillow (@img_512_of reference_pillow m));
          SysPrint "Icon generated successfully!"].
Proof.
  destruct (@missing_directories_made_parents_first reference_pillow
              fresh_world 0 fresh_world_tree) as (w' & m & Hrun & Hm & Hcalls).
  - rewrite output_path_length. lia.
  - reflexivity.
  - vm_compute. reflexivity.
  - exists w', m. split; [exact Hrun |]. split; [exact Hm |].
    rewrite Hcalls. cbn [calls fresh_world app].
    f_equal; vm_compute; reflexivity.
Defined.

(* ===================================================================== *)
(** * Further properties: the text bars and the watermark                 *)
(* ===================================================================== *)

Section Overdraw.
Context `{Pillow}.

(** Of the eight shapes drawn after the page body, a later one never hides
    an earlier one: wherever one of them covers a pixel, the topmost fill
    there is its own. *)
Lemma topmost_above_page (x y : Z) (g : (Z -> Z -> bool) * rgba) :
  g ∈ drop 1 glyphs -> fst g x y = true -> topmost glyphs x y = Some (snd g).
Proof.
  intros Hin Hg.
  pose proof (glyphs_in_boxes x y) as Hboxes.
  unfold topmost.
  unfold glyphs, glyph_boxes in *. cbn [drop] in Hin.
  repeat match goal with
  | Hb : Forall2 _ (_ :: _) (_ :: _) |- _ =>
      apply Forall2_cons in Hb; destruct Hb as [? Hb]
  end.
  cbn [fold_left fst snd] in *.
  repeat (apply elem_of_cons in Hin as [-> | Hin]);
    [ .. | apply elem_of_nil in Hin; contradiction ];
    cbn [fst snd] in Hg |- *;
    repeat match goal with
    | |- (if ?b then _ else _) = _ => destruct b eqn:?
    end;
    try reflexivity; try congruence;
    exfalso;
    repeat match goal with
    | Hb : ?c = true -> _, E : ?c = true |- _ => specialize (Hb E)
    end; lia.
Qed.

(** So two of the eight that cover the same pixel have the same fill. *)
Lemma shapes_above_page_agree (x y : Z) (g1 g2 : (Z -> Z -> bool) * rgba) :
  g1 ∈ drop 1 glyphs -> g2 ∈ drop 1 glyphs ->
  fst g1 x y = true -> fst g2 x y = true -> snd g1 = snd g2.
Proof.
  intros Hin1 Hin2 Hg1 Hg2.
  pose proof (topmost_above_page x y g1 Hin1 Hg1) as H1.
  pose proof (topmost_above_page x y g2 Hin2 Hg2) as H2.
  congruence.
Qed.

End Overdraw.

(** The topmost fill of a list, from its first shape on. *)
Lemma topmost_cons (g : (Z -> Z -> bool) * rgba) gs x y :
  topmost (g :: gs) x y
  = match topmost gs x y with
    | Some c => Some c
    | None => if fst g x y then Some (snd g) else None
    end.
Proof.
  induction gs as [| h gs IH] using rev_ind; [reflexivity |].
  rewrite app_comm_cons, !topmost_snoc, IH.
  destruct (fst h x y); reflexivity.
Qed.

(** Where the shapes that cover a pixel all have the same fill, the topmost
    fill does not depend on the order of the list. *)
Lemma topmost_permutation (gs gs' : list ((Z -> Z -> bool) * rgba)) (x y : Z) :
  gs' ≡ₚ gs ->
  (forall g1 g2, g1 ∈ gs -> g2 ∈ gs ->
     fst g1 x y = true -> fst g2 x y = true -> snd g1 = snd g2) ->
  topmost gs' x y = topmost gs x y.
Proof.
  intros Hperm Hagree.
  destruct (topmost gs x y) as [c |] eqn:Ht.
  - apply topmost_some in Ht as (b & g & a & Heq & Hg & Hs & _).
    assert (Hin : g ∈ gs)
      by (rewrite Heq; apply elem_of_app; right; apply list_elem_of_here).
    destruct (topmost gs' x y) as [c' |] eqn:Ht'.
    + apply topmost_some in Ht' as (b' & g' & a' & Heq' & Hg' & Hs' & _).
      assert (Hin' : g' ∈ gs)
        by (rewrite <- Hperm, Heq'; apply elem_of_app; right;
            apply list_elem_of_here).
      rewrite <- Hs, <- Hs'. f_equal. exact (Hagree g' g Hin' Hin Hg' Hg).
    + apply topmost_none in Ht'. rewrite Forall_forall in Ht'.
      rewrite <- Hperm in Hin. specialize (Ht' g Hin). congruence.
  - apply topmost_none. apply topmost_none in Ht.
    now rewrite Hperm.
Qed.

(** Outside the image nothing is drawn. *)
Lemma draw_shapes_outside (gs : list ((Z -> Z -> bool) * rgba)) (x y : Z) :
  forall im : Image rgba,
    in_bounds im x y = false -> pixel (draw_shapes gs im) x y = pixel im x y.
Proof.
  unfold draw_shapes.
  induction gs as [| g gs IH]; intros im Hout; [reflexivity |].
  cbn [fold_left]. rewrite IH by exact Hout.
  cbn [pixel paint]. now rewrite Hout.
Qed.

(** X13.  Only the page body is ever drawn over.  The fold, the heading
    bar, the four body lines, the M and the arrow are painted in full: their
    boxes do not meet, except those of the M and the arrow, which have the
    same fill.  So wherever one of these eight shapes covers a pixel, the
    master image holds exactly its fill there, colour and alpha.  And the
    order of these eight calls does not matter: drawing the page body and
    then the eight in any other order gives the same image as the script's
    order, the same size and the same value in every pixel. *)
Theorem bars_and_watermark_not_overdrawn `{Pillow} :
  (forall x y (g : (Z -> Z -> bool) * rgba),
     g ∈ drop 1 glyphs -> fst g x y = true ->
     returns img_master (fun m => getpixel m x y = Some (snd g))) /\
  (forall (gs' : list ((Z -> Z -> bool) * rgba)) (im : Image rgba),
     gs' ≡ₚ drop 1 glyphs ->
     size_of (draw_shapes (take 1 glyphs ++ gs') im) = size_of (draw_glyphs im) /\
     forall x y,
       pixel (draw_shapes (take 1 glyphs ++ gs') im) x y
       = pixel (draw_glyphs im) x y).
Proof.
  split.
  - intros x y g Hin Hg.
    assert (Hall : g ∈ glyphs).
    { rewrite <- (take_drop 1 glyphs). apply elem_of_app. right. exact Hin. }
    destruct (glyph_in_document g x y Hall Hg) as [Hx Hy].
    destruct img_master_spec as (m & Hrun & Hsize & Hpix).
    exists m. split; [exact Hrun |].
    unfold getpixel.
    replace (in_bounds m x y) with true.
    + rewrite Hpix by (unfold size; lia).
      now rewrite (topmost_above_page x y g Hin Hg).
    + symmetry. apply in_bounds_iff. unfold width, height. rewrite Hsize.
      cbn [fst snd]. unfold size. lia.
  - intros gs' im Hperm. rewrite draw_glyphs_fold.
    change (fold_left (fun im g => paint im (fst g) (snd g)) glyphs im)
      with (draw_shapes glyphs im).
    split; [unfold draw_shapes; now rewrite !fold_paint_size |].
    intros x y. destruct (in_bounds im x y) eqn:Hb.
    + unfold draw_shapes. rewrite !fold_paint_pixel by exact Hb.
      replace (topmost (take 1 glyphs ++ gs') x y) with (topmost glyphs x y);
        [reflexivity |].
      change glyphs with (take 1 glyphs ++ drop 1 glyphs) at 1.
      cbn [take app glyphs]. rewrite !topmost_cons.
      rewrite (topmost_permutation (drop 1 glyphs) gs' x y Hperm
                 (shapes_above_page_agree x y)).
      reflexivity.
    + now rewrite !draw_shapes_outside by exact Hb.
Qed.

Lemma bars_and_watermark_not_overdrawn_witness :
  returns (@img_master reference_pillow) (fun m =>
    getpixel m 400 430 = Some (RGBA 120 160 220 160)) /\
  pixel (draw_shapes (take 1 (@glyphs reference_pillow)
                      ++ rev (drop 1 (@glyphs reference_pillow))) img_new) 400 430
  = pixel (@draw_glyphs reference_pillow img_new) 400 430.
Proof.
  destruct (@bars_and_watermark_not_overdrawn reference_pillow) as [Hkept Horder].
  split.
  - apply (Hkept 400 430
             (@rounded_rectangle_covers reference_pillow (340, 420) (680, 448) 6,
              line_color)).
    + cbn [drop glyphs]. do 2 apply list_elem_of_further. apply list_elem_of_here.
    + vm_compute. reflexivity.
  - apply (Horder (rev (drop 1 (@glyphs reference_pillow))) img_new).
    symmetry. apply Permutation_rev.
Defined.

(* ===================================================================== *)
(** * Further properties: [os.path.join] and the path it names            *)
(* ===================================================================== *)

Lemma append_cons (c : ascii) (s t : string) :
  String c s +:+ t = String c (s +:+ t).
Proof. reflexivity. Qed.

Lemma append_empty_l (t : string) : EmptyString +:+ t = t.
Proof. reflexivity. Qed.

Lemma append_empty_r (s : string) : s +:+ EmptyString = s.
Proof.
  induction s as [| c s IH]; [reflexivity |].
  rewrite append_cons. f_equal. exact IH.
Qed.

Lemma append_assoc (s1 s2 s3 : string) : (s1 +:+ s2) +:+ s3 = s1 +:+ (s2 +:+ s3).
Proof.
  induction s1 as [| c s1 IH]; [reflexivity |].
  rewrite !append_cons. f_equal. exact IH.
Qed.

Lemma split_slash_nonempty (s acc : string) : split_slash s acc <> [].
Proof.
  revert acc. induction s as [| c s IH]; intros acc; cbn; [discriminate |].
  destruct (Ascii.eqb c "/"); [discriminate | apply IH].
Qed.

(** Splitting a concatenation: the pieces of the first string, the last of
    them continued by the second string. *)
Lemma split_slash_app (s1 s2 acc : string) :
  split_slash (s1 +:+ s2) acc
  = removelast (split_slash s1 acc)
    ++ split_slash s2 (List.last (split_slash s1 acc) EmptyString).
Proof.
  revert acc. induction s1 as [| c s1 IH]; intros acc; [reflexivity |].
  rewrite append_cons. cbn [split_slash].
  destruct (Ascii.eqb c "/").
  - rewrite IH.
    pose proof (split_slash_nonempty s1 EmptyString) as Hne.
    destruct (split_slash s1 EmptyString) as [| p ps]; [congruence |].
    reflexivity.
  - apply IH.
Qed.

Lemma split_slash_free (b acc : string) :
  slash_free b = true -> split_slash b acc = [acc +:+ b].
Proof.
  revert acc. induction b as [| c b IH]; intros acc Hb.
  - cbn. now rewrite append_empty_r.
  - cbn [slash_free] in Hb. apply andb_prop in Hb as [Hc Hb].
    apply negb_true_iff in Hc. cbn [split_slash]. rewrite Hc.
    rewrite (IH _ Hb), append_assoc. reflexivity.
Qed.

Lemma split_slash_ends (a acc : string) :
  ends_with_slash a = true ->
  List.last (split_slash a acc) EmptyString = EmptyString.
Proof.
  revert acc. induction a as [| c a IH]; intros acc Ha; [discriminate |].
  cbn [split_slash]. destruct a as [| c' a'].
  - cbn [ends_with_slash] in Ha. rewrite Ha. reflexivity.
  - assert (Ha' : ends_with_slash (String c' a') = true) by exact Ha.
    destruct (Ascii.eqb c "/").
    + pose proof (split_slash_nonempty (String c' a') EmptyString) as Hne.
      specialize (IH EmptyString Ha').
      destruct (split_slash (String c' a') EmptyString) as [| p ps];
        [congruence | exact IH].
    + exact (IH _ Ha').
Qed.

Lemma components_split (l : list string) :
  l <> [] ->
  filter (fun c => c ≠ EmptyString) l
  = filter (fun c => c ≠ EmptyString) (removelast l)
    ++ filter (fun c => c ≠ EmptyString) [List.last l EmptyString].
Proof.
  intros Hne. rewrite <- filter_app. f_equal.
  now apply app_removelast_last.
Qed.

(** X14.  [os.path.join(a, b)] with a file name [b], not empty and without
    a slash, names the entry [b] of the directory [a]: its components are
    those of [a] followed by [b], whether [a] ends in a slash or not, has
    doubled slashes, or is empty.  So each of the two files of lines 91 and 95
    lies directly in the directory that line 90 makes, and this does not
    depend on how [output_dir] is written. *)
Theorem join_names_an_entry_of_the_directory (a b : string) :
  b <> EmptyString -> slash_free b = true ->
  components (join a b) = components a ++ [b] /\
  parent (components (join a b)) = components a.
Proof.
  intros Hb Hfree.
  assert (Hmain : components (join a b) = components a ++ [b]).
  { unfold join, components.
    assert (Hstart : starts_with_slash b = false).
    { destruct b as [| c b']; [reflexivity |]. cbn in Hfree |- *.
      apply andb_prop in Hfree as [Hc _]. now apply negb_true_iff in Hc. }
    assert (Hone : filter (fun c => c ≠ EmptyString) [b] = [b]).
    { cbn. unfold filter, list_filter. rewrite decide_True by exact Hb.
      reflexivity. }
    rewrite Hstart.
    pose proof (split_slash_nonempty a EmptyString) as Hne.
    destruct ((String.length a =? 0)%nat || ends_with_slash a) eqn:Hcase.
    - rewrite split_slash_app, filter_app.
      assert (Hlast : List.last (split_slash a EmptyString) EmptyString = EmptyString).
      { apply orb_prop in Hcase as [Hlen | Hend]; [| now apply split_slash_ends].
        destruct a; [reflexivity | discriminate]. }
      rewrite Hlast, (split_slash_free b _ Hfree), append_empty_l.
      rewrite Hone, (components_split _ Hne), Hlast. f_equal.
      cbn. unfold filter, list_filter. rewrite decide_False by tauto.
      now rewrite app_nil_r.
    - rewrite split_slash_app, filter_app.
      rewrite append_cons, append_empty_l. cbn [split_slash].
      rewrite Ascii.eqb_refl.
      rewrite (split_slash_free b _ Hfree), append_empty_l.
      rewrite (components_split _ Hne), <- app_assoc. f_equal.
      change (?x :: [b]) with ([x] ++ [b]). rewrite filter_app, Hone.
      reflexivity. }
  split; [exact Hmain |]. rewrite Hmain. apply parent_snoc.
Qed.

Lemma join_names_an_entry_of_the_directory_witness :
  components (join "/tmp//icons/" "icon.png") = ["tmp"; "icons"; "icon.png"]%string /\
  components (join "/tmp/icons" "icon.png") = ["tmp"; "icons"; "icon.png"]%string.
Proof.
  split.
  - refine (proj1 (join_names_an_entry_of_the_directory "/tmp//icons/" "icon.png" _ _));
      [discriminate | reflexivity].
  - refine (proj1 (join_names_an_entry_of_the_directory "/tmp/icons" "icon.png" _ _));
      [discriminate | reflexivity].
Defined.
